(** * The per-thread promise registry of arangodb::async_registry

    Shallow embedding of [lib/Async/Registry/thread_registry.h]
    (struct [ThreadRegistry]) and of the promise header that declares
    [Promise], [State], [Waiter], [SourceLocation] and the handle
    [AddToAsyncRegistry].

    The C++ objects live in a store: promise records and registries are
    kept in finite maps from addresses to records, a pointer is an optional
    address ([None] is [nullptr]).  Member functions become computations in
    a small state-and-failure monad; they are executed one after the other
    (a sequential execution of the program), so [std::atomic] cells are
    plain fields and the [std::mutex] of the registry, which is taken and
    released inside [for_promise] and [garbage_collect], is always free
    when a member function starts and is left out of the state. *)

From stdpp Require Import gmap strings list fin_maps.
From Stdlib Require Import ZArith Lia.

Open Scope Z_scope.
Set Warnings "-clear-no-such-hyp".

(** ** Data model *)

Definition addr := positive.
Abbreviation ptr := (option addr).

(** [std::thread::id] *)
Definition std_thread_id := positive.

Record Thread := mkThread {
  thread_name : string;
  thread_id : std_thread_id
}.

(** [line] is a [std::uint_least32_t]; it is only copied, never computed
    with. *)
Record SourceLocationSnapshot := mkSourceLocationSnapshot {
  snap_file_name : string;
  snap_function_name : string;
  snap_line : Z
}.

(** [struct SourceLocation]: two constant strings and an atomic line. *)
Record SourceLocation := mkSourceLocation {
  file_name : string;
  function_name : string;
  line : Z
}.

(** The argument type [std::source_location] of the handle. *)
Record std_source_location := mkStdSourceLocation {
  sl_file_name : string;
  sl_function_name : string;
  sl_line : Z;
  sl_column : Z
}.

Inductive State := Running | Suspended | Resolved | Deleted.

Inductive Waiter :=
| NoWaiter
| AsyncWaiter (item : ptr)
| SyncWaiter (item : std_thread_id).

Record PromiseSnapshot := mkPromiseSnapshot {
  snap_id : ptr;
  snap_thread : Thread;
  snap_source_location : SourceLocationSnapshot;
  snap_waiter : Waiter;
  snap_state : State
}.

(** [struct Promise].  The registry code works on [PromiseInList*]; that
    type is declared in [promise.h] and contributes the link fields
    [registry], [next], [previous], [next_to_free] used below, which are
    also the link fields of [Promise]. *)
Record Promise := mkPromise {
  thread : Thread;
  source_location : SourceLocation;
  waiter : Waiter;
  state : State;
  registry : ptr;
  next : ptr;
  previous : ptr;
  next_to_free : ptr
}.

Record ThreadRegistry := mkThreadRegistry {
  owning_thread : std_thread_id;
  free_head : ptr;
  promise_head : ptr;
  ref_count : Z
}.

(** The store.  A record that has been destroyed is no longer in
    [promises]; [destroyed] logs the calls of [destroy()], oldest first. *)
Record World := mkWorld {
  promises : gmap addr Promise;
  registries : gmap addr ThreadRegistry;
  destroyed : list addr
}.

Definition empty_world : World := mkWorld ∅ ∅ [].

(** [size_t] arithmetic of the reference counter. *)
Definition size_t_modulus : Z := 2 ^ 64.
Definition wrap_size_t (z : Z) : Z := z mod size_t_modulus.

(** *** Field updates *)

Definition set_line (v : Z) (l : SourceLocation) : SourceLocation :=
  mkSourceLocation (file_name l) (function_name l) v.

Definition set_source_location (v : SourceLocation) (p : Promise) : Promise :=
  mkPromise (thread p) v (waiter p) (state p) (registry p) (next p)
            (previous p) (next_to_free p).
Definition set_waiter (v : Waiter) (p : Promise) : Promise :=
  mkPromise (thread p) (source_location p) v (state p) (registry p) (next p)
            (previous p) (next_to_free p).
Definition set_state (v : State) (p : Promise) : Promise :=
  mkPromise (thread p) (source_location p) (waiter p) v (registry p) (next p)
            (previous p) (next_to_free p).
Definition set_registry (v : ptr) (p : Promise) : Promise :=
  mkPromise (thread p) (source_location p) (waiter p) (state p) v (next p)
            (previous p) (next_to_free p).
Definition set_next (v : ptr) (p : Promise) : Promise :=
  mkPromise (thread p) (source_location p) (waiter p) (state p) (registry p) v
            (previous p) (next_to_free p).
Definition set_previous (v : ptr) (p : Promise) : Promise :=
  mkPromise (thread p) (source_location p) (waiter p) (state p) (registry p)
            (next p) v (next_to_free p).
Definition set_next_to_free (v : ptr) (p : Promise) : Promise :=
  mkPromise (thread p) (source_location p) (waiter p) (state p) (registry p)
            (next p) (previous p) v.

Definition set_free_head (v : ptr) (r : ThreadRegistry) : ThreadRegistry :=
  mkThreadRegistry (owning_thread r) v (promise_head r) (ref_count r).
Definition set_promise_head (v : ptr) (r : ThreadRegistry) : ThreadRegistry :=
  mkThreadRegistry (owning_thread r) (free_head r) v (ref_count r).
Definition set_ref_count (v : Z) (r : ThreadRegistry) : ThreadRegistry :=
  mkThreadRegistry (owning_thread r) (free_head r) (promise_head r) v.

Definition with_promises (h : gmap addr Promise) (w : World) : World :=
  mkWorld h (registries w) (destroyed w).
Definition with_registries (g : gmap addr ThreadRegistry) (w : World) : World :=
  mkWorld (promises w) g (destroyed w).
Definition with_destroyed (d : list addr) (w : World) : World :=
  mkWorld (promises w) (registries w) d.

(** ** The monad of member functions *)

(** Outcome of running a member function in a store:
    - [Ok a w]: it returned [a] and left the store [w];
    - [Fatal w]: an [ADB_PROD_ASSERT] failed and the process aborted in [w];
    - [Undefined]: it dereferenced a pointer to no object;
    - [Diverges]: a loop did not come to its end. *)
Inductive Res (A : Type) : Type :=
| Ok (a : A) (w : World)
| Fatal (w : World)
| Undefined
| Diverges.
Arguments Ok {A} a w.
Arguments Fatal {A} w.
Arguments Undefined {A}.
Arguments Diverges {A}.

Definition M (A : Type) : Type := World → Res A.

Definition ret {A} (a : A) : M A := λ w, Ok a w.
Definition bind {A B} (m : M A) (k : A → M B) : M B :=
  λ w, match m w with
       | Ok a w' => k a w'
       | Fatal w' => Fatal w'
       | Undefined => Undefined
       | Diverges => Diverges
       end.

Notation "'let!' x ':=' m 'in' k" := (bind m (λ x, k))
  (at level 10, x name, m at level 100, k at level 200, only parsing).
Notation "'do!' m 'in' k" := (bind m (λ _, k))
  (at level 10, m at level 100, k at level 200, only parsing).

Definition get_world : M World := λ w, Ok w w.
Definition diverge {A} : M A := λ _, Diverges.

Definition load_promise (a : addr) : M Promise :=
  λ w, match promises w !! a with
       | Some p => Ok p w
       | None => Undefined
       end.
Definition modify_promise (a : addr) (f : Promise → Promise) : M unit :=
  λ w, match promises w !! a with
       | Some p => Ok tt (with_promises (<[a := f p]> (promises w)) w)
       | None => Undefined
       end.
Definition load_registry (r : addr) : M ThreadRegistry :=
  λ w, match registries w !! r with
       | Some g => Ok g w
       | None => Undefined
       end.
Definition modify_registry (r : addr) (f : ThreadRegistry → ThreadRegistry)
  : M unit :=
  λ w, match registries w !! r with
       | Some g => Ok tt (with_registries (<[r := f g]> (registries w)) w)
       | None => Undefined
       end.

(** Modelled from the spec: the macro [ADB_PROD_ASSERT] comes from
    [Assertions/ProdAssert.h], which is not among the sources.  The spec
    calls a failed precondition a fatal assertion that aborts the
    process. *)
Definition ADB_PROD_ASSERT (b : bool) : M unit :=
  λ w, if b then Ok tt w else Fatal w.

(** Modelled from the spec: [PromiseInList::destroy] is a virtual member of
    the type declared in [promise.h], which is not among the sources.  The
    spec calls destruction the physical reclamation of the record, after
    which the record is not to be observed: the cell leaves the store, so
    that any later dereference of the record is [Undefined], and the call
    is logged in [destroyed]. *)
Definition destroy (promise : addr) : M unit :=
  let! _ := load_promise promise in
  λ w, Ok tt (with_destroyed (destroyed w ++ [promise])
                (with_promises (delete promise (promises w)) w)).

(** [delete this] *)
Definition delete_registry (this : addr) : M unit :=
  let! _ := load_registry this in
  λ w, Ok tt (with_registries (delete this (registries w)) w).

(** ** [struct ThreadRegistry] *)

(** [new ThreadRegistry{}] on thread [self]: the default member
    initializers, at an address not in use. *)
Definition make (self : std_thread_id) : M addr :=
  λ w, let this := fresh (dom (registries w)) in
       Ok this (with_registries
                  (<[this := mkThreadRegistry self None None 0]> (registries w)) w).

Definition increment_ref_count (this : addr) : M unit :=
  modify_registry this (λ r, set_ref_count (wrap_size_t (ref_count r + 1)) r).

Definition add (self : std_thread_id) (this promise : addr) : M unit :=
  let! r := load_registry this in
  do! ADB_PROD_ASSERT (bool_decide (self = owning_thread r)) in
  let current_head := promise_head r in
  do! modify_promise promise (set_next current_head) in
  do! modify_promise promise (set_registry (Some this)) in
  do! match current_head with
      | Some h => modify_promise h (set_previous (Some promise))
      | None => ret tt
      end in
  do! modify_registry this (set_promise_head (Some promise)) in
  increment_ref_count this.

(** The callback gets the record's address and the record; it can only
    accumulate into its own state [A]. *)
Fixpoint for_promise_loop {A} (fuel : nat) (function : addr → Promise → A → A)
    (current : ptr) (acc : A) : M A :=
  match current with
  | None => ret acc
  | Some c =>
      match fuel with
      | O => diverge
      | S fuel' =>
          let! p := load_promise c in
          for_promise_loop fuel' function (next p) (function c p acc)
      end
  end.

(** A walk that visits more cells than the store holds has come back to a
    cell; the bound is the number of cells. *)
Definition for_promise {A} (this : addr) (function : addr → Promise → A → A)
    (acc : A) : M A :=
  let! r := load_registry this in
  let! w := get_world in
  for_promise_loop (size (promises w)) function (promise_head r) acc.

Definition remove (this promise : addr) : M unit :=
  let! p := load_promise promise in
  let nxt := next p in
  let prv := previous p in
  do! match prv with
      | None => modify_registry this (set_promise_head nxt)
      | Some pv => modify_promise pv (set_next nxt)
      end in
  match nxt with
  | Some n => modify_promise n (set_previous prv)
  | None => ret tt
  end.

Fixpoint garbage_collect_loop (fuel : nat) (this : addr) (current : ptr)
  : M unit :=
  match current with
  | None => ret tt
  | Some c =>
      match fuel with
      | O => diverge
      | S fuel' =>
          do! remove this c in
          do! destroy c in
          let! p := load_promise c in
          garbage_collect_loop fuel' this (next_to_free p)
      end
  end.

Definition garbage_collect (self : std_thread_id) (this : addr) : M unit :=
  let! r := load_registry this in
  do! ADB_PROD_ASSERT (bool_decide (ref_count r = 0)
                       || bool_decide (self = owning_thread r)) in
  let head := free_head r in
  do! modify_registry this (set_free_head None) in
  let! w := get_world in
  garbage_collect_loop (size (promises w)) this head.

Definition decrement_ref_count (self : std_thread_id) (this : addr) : M unit :=
  let! r := load_registry this in
  let old := ref_count r in
  do! modify_registry this (set_ref_count (wrap_size_t (old - 1))) in
  if bool_decide (old = 1)
  then do! garbage_collect self this in delete_registry this
  else ret tt.

(** [free_head.compare_exchange_weak(expected, desired)]: returns whether
    it stored [desired], and the value left in [expected].  [spurious]
    tells whether this attempt fails although the values agree. *)
Definition compare_exchange_weak (spurious : bool) (this : addr)
    (expected desired : ptr) : M (bool * ptr) :=
  let! r := load_registry this in
  if bool_decide (free_head r = expected) && negb spurious
  then do! modify_registry this (set_free_head desired) in ret (true, expected)
  else ret (false, free_head r).

(** The do-while loop of [mark_for_deletion]; [spurious] is the number of
    attempts of the weak compare-exchange that fail spuriously.  In a
    sequential execution no other failure occurs; an attempt that fails
    after these is reported as [Diverges]. *)
Fixpoint mark_for_deletion_loop (spurious : nat) (this promise : addr)
    (current_head : ptr) : M unit :=
  do! modify_promise promise (set_next_to_free current_head) in
  match spurious with
  | S n =>
      let! res := compare_exchange_weak true this current_head (Some promise) in
      if res.1 then ret tt
      else mark_for_deletion_loop n this promise res.2
  | O =>
      let! res := compare_exchange_weak false this current_head (Some promise) in
      if res.1 then ret tt else diverge
  end.

Definition mark_for_deletion (spurious : nat) (self : std_thread_id)
    (this promise : addr) : M unit :=
  let! p := load_promise promise in
  do! ADB_PROD_ASSERT (bool_decide (registry p = Some this)) in
  let! r := load_registry this in
  let current_head := free_head r in
  do! mark_for_deletion_loop spurious this promise current_head in
  decrement_ref_count self this.

(** ** [struct Promise] and the handle [AddToAsyncRegistry] *)

Definition SourceLocation_snapshot (l : SourceLocation) : SourceLocationSnapshot :=
  mkSourceLocationSnapshot (file_name l) (function_name l) (line l).

(** [Promise::id] returns [this]. *)
Definition Promise_id (this : addr) : ptr := Some this.

Definition Promise_snapshot (this : addr) : M PromiseSnapshot :=
  let! p := load_promise this in
  ret (mkPromiseSnapshot (Promise_id this) (thread p)
         (SourceLocation_snapshot (source_location p)) (waiter p) (state p)).

Record AddToAsyncRegistry := mkAddToAsyncRegistry {
  promise_in_registry : ptr
}.

(** [AddToAsyncRegistry() = default] *)
Definition AddToAsyncRegistry_default : AddToAsyncRegistry :=
  mkAddToAsyncRegistry None.

(** The two overloads of [set_promise_waiter]. *)
Definition set_promise_waiter_async (h : AddToAsyncRegistry) (waiter : ptr)
  : M unit :=
  match promise_in_registry h with
  | Some a => modify_promise a (set_waiter (AsyncWaiter waiter))
  | None => ret tt
  end.

Definition set_promise_waiter_sync (h : AddToAsyncRegistry)
    (waiter : std_thread_id) : M unit :=
  match promise_in_registry h with
  | Some a => modify_promise a (set_waiter (SyncWaiter waiter))
  | None => ret tt
  end.

(** [AddToAsyncRegistry::id] *)
Definition AddToAsyncRegistry_id (h : AddToAsyncRegistry) : ptr :=
  match promise_in_registry h with
  | Some a => Promise_id a
  | None => None
  end.

Definition update_source_location (h : AddToAsyncRegistry)
    (loc : std_source_location) : M unit :=
  match promise_in_registry h with
  | Some a =>
      modify_promise a
        (λ p, set_source_location (set_line (sl_line loc) (source_location p)) p)
  | None => ret tt
  end.

Definition update_state (h : AddToAsyncRegistry) (s : State) : M unit :=
  match promise_in_registry h with
  | Some a => modify_promise a (set_state s)
  | None => ret tt
  end.

(** Modelled from the spec: the destructor [~AddToAsyncRegistry] and
    [Promise::mark_for_deletion] are declared in the header and defined in a
    source file that is not among the sources.  The spec: on destruction the
    handle calls [mark_for_deletion] on the record's registry; a handle
    that was never attached does nothing. *)
Definition AddToAsyncRegistry_destructor (spurious : nat) (self : std_thread_id)
    (h : AddToAsyncRegistry) : M unit :=
  match promise_in_registry h with
  | Some a =>
      let! p := load_promise a in
      match registry p with
      | Some r => mark_for_deletion spurious self r a
      | None => λ _, Undefined
      end
  | None => ret tt
  end.

(** ** Shape of the store *)

(** [dll h this prev l]: the cells [l] are linked in this order through
    [next], back through [previous] ([prev] for the first), the last [next]
    is null, and each cell names the registry [this]. *)
Fixpoint dll (h : gmap addr Promise) (this : addr) (prev : ptr) (l : list addr)
  : Prop :=
  match l with
  | [] => True
  | a :: l' =>
      ∃ p, h !! a = Some p ∧ previous p = prev ∧ next p = head l'
           ∧ registry p = Some this ∧ dll h this (Some a) l'
  end.

(** [free_chain h l]: the cells [l] are linked in this order through
    [next_to_free], the last link is null. *)
Fixpoint free_chain (h : gmap addr Promise) (l : list addr) : Prop :=
  match l with
  | [] => True
  | a :: l' =>
      ∃ p, h !! a = Some p ∧ next_to_free p = head l' ∧ free_chain h l'
  end.

(** The registry at [this] holds the live list [live] and the free list
    [free]. *)
Record Rep (w : World) (this : addr) (live free : list addr) : Prop := mkRep {
  rep_registry :
    ∃ r, registries w !! this = Some r
         ∧ promise_head r = head live ∧ free_head r = head free;
  rep_live : dll (promises w) this None live;
  rep_free : free_chain (promises w) free;
  rep_live_nodup : NoDup live;
  rep_free_nodup : NoDup free;
  rep_free_live : ∀ a, a ∈ free → a ∈ live
}.

(** The traversal of [for_promise] with a callback that records the
    address it is given. *)
Definition visited (this : addr) : M (list addr) :=
  for_promise this (λ a _ acc, acc ++ [a]) [].

(** Modelled from the spec: the constructor of the record is declared in
    the header and defined in a source file that is not among the sources.
    A freshly allocated record carries the thread and source location it
    was given and the default member initializers of the header: no
    waiter, [Running], null links. *)
Definition new_Promise (t : Thread) (loc : std_source_location) : Promise :=
  mkPromise t (mkSourceLocation (sl_file_name loc) (sl_function_name loc) (sl_line loc))
            NoWaiter Running None None None None.

(** The progress rule (I5) in the words of the specification:
    Running -> Suspended <-> Running -> Resolved -> Deleted.  The header has
    no such rule; it is stated here to compare [update_state] with it. *)
Definition spec_state_advances (s1 s2 : State) : bool :=
  match s1, s2 with
  | Running, Suspended | Suspended, Running
  | Running, Resolved | Resolved, Deleted => true
  | _, _ => false
  end.

(** ** Scripts of registry calls *)

Inductive op :=
| OpAdd (a : addr) (t : Thread) (loc : std_source_location)
| OpMark (spurious : nat) (self : std_thread_id) (a : addr)
| OpCollect
| OpIncrement
| OpDecrement (self : std_thread_id).

(** [OpAdd] constructs a record at [a] and adds it on the owner thread;
    [OpCollect] is a garbage collection on the owner thread. *)
Definition run_op (owner : std_thread_id) (this : addr) (o : op) : M unit :=
  match o with
  | OpAdd a t loc =>
      do! (λ w, Ok tt (with_promises (<[a := new_Promise t loc]> (promises w)) w)) in
      add owner this a
  | OpMark n self a => mark_for_deletion n self this a
  | OpCollect => garbage_collect owner this
  | OpIncrement => increment_ref_count this
  | OpDecrement self => decrement_ref_count self this
  end.

Fixpoint run_script (owner : std_thread_id) (this : addr) (s : list op) : M unit :=
  match s with
  | [] => ret tt
  | o :: s' => do! run_op owner this o in run_script owner this s'
  end.


(** A script keeps the contract of the registry: a record is constructed at
    an address not used before, and [mark_for_deletion] is called at most
    once per record, on a record that has been added.  [A] and [K] are the
    addresses added and marked before the script. *)
Fixpoint script_ok (A K : gset addr) (s : list op) : bool :=
  match s with
  | [] => true
  | OpAdd a _ _ :: s' => bool_decide (a ∉ A) && script_ok ({[a]} ∪ A) K s'
  | OpMark _ _ a :: s' =>
      bool_decide (a ∈ A) && bool_decide (a ∉ K) && script_ok A ({[a]} ∪ K) s'
  | _ :: s' => script_ok A K s'
  end.

(** What holds of the store after a script that added [A] and marked [K],
    as long as the registry has not deleted itself: the live list holds the
    added records that have not been destroyed, a marked record is on the
    free list or has been destroyed, and no record was destroyed twice. *)
Definition Inv (owner : std_thread_id) (this : addr) (A K : gset addr)
    (w : World) : Prop :=
  ∀ r, registries w !! this = Some r →
       owning_thread r = owner
       ∧ ∃ live free,
           Rep w this live free
           ∧ (∀ a, a ∈ live ↔ a ∈ A ∧ a ∉ destroyed w)
           ∧ (∀ a, a ∈ K ↔ a ∈ free ∨ a ∈ destroyed w)
           ∧ NoDup (destroyed w)
           ∧ K ⊆ A.

(** [reg_kept this w w']: from [w] to [w'] the registry at [this] kept its
    owner, its free list head and its counter. *)
Definition reg_kept (this : addr) (w w' : World) : Prop :=
  ∀ r, registries w !! this = Some r →
       ∃ r', registries w' !! this = Some r'
             ∧ owning_thread r' = owning_thread r
             ∧ free_head r' = free_head r
             ∧ ref_count r' = ref_count r.

(** [links_kept h h']: every cell of [h] is a cell of [h'] with the same
    [next_to_free], [registry], [state] and observable fields; only [next]
    and [previous] may differ. *)
Definition links_kept (h h' : gmap addr Promise) : Prop :=
  ∀ b p, h !! b = Some p →
         ∃ p', h' !! b = Some p'
               ∧ next_to_free p' = next_to_free p
               ∧ registry p' = registry p
               ∧ state p' = state p.

(** The store in which the loop of [mark_for_deletion] has linked the
    record [a] (with fields [p]) in front of the free list of the registry
    at [this] (with fields [r]). *)
Definition linked (this a : addr) (p : Promise) (r : ThreadRegistry) (w : World)
  : World :=
  with_registries
    (<[this := set_free_head (Some a) r]> (registries w))
    (with_promises (<[a := set_next_to_free (free_head r) p]> (promises w)) w).

(** ** Concrete stores *)

Definition example_promise (s : State) (reg nxt prv ntf : ptr) : Promise :=
  mkPromise (mkThread "worker" 7%positive)
            (mkSourceLocation "query.cpp" "execute" 10)
            NoWaiter s reg nxt prv ntf.

Definition example_location : std_source_location :=
  mkStdSourceLocation "query.cpp" "execute" 42 3.

(** Three constructed records, no registry. *)
Definition three_records : World :=
  mkWorld (<[1%positive := example_promise Running None None None None]>
             (<[2%positive := example_promise Running None None None None]>
                {[3%positive := example_promise Running None None None None]}))
          ∅ [].

(** The registry at address 1 of thread 7 holds the record at address 5,
    which is in state [s]; the counter is [rc]. *)
Definition one_record (s : State) (rc : Z) : World :=
  mkWorld {[5%positive := example_promise s (Some 1%positive) None None None]}
          {[1%positive := mkThreadRegistry 7%positive None (Some 5%positive) rc]}
          [].

(** The same with the record marked for deletion. *)
Definition one_marked_record (rc : Z) : World :=
  mkWorld {[5%positive := example_promise Running (Some 1%positive) None None None]}
          {[1%positive :=
              mkThreadRegistry 7%positive (Some 5%positive) (Some 5%positive) rc]}
          [].

Definition example_script : list op :=
  [OpIncrement;
   OpAdd 1%positive (mkThread "worker" 7%positive) example_location;
   OpAdd 2%positive (mkThread "worker" 7%positive) example_location;
   OpCollect;
   OpMark 1 9%positive 1%positive;
   OpAdd 3%positive (mkThread "worker" 7%positive) example_location;
   OpMark 0 7%positive 3%positive].

(** ** Further definitions for the properties of the registry calls *)

(** What a traversal computes: the callback folded over the cells [l], first
    to last, each with the record the store holds for it. *)
Fixpoint visit_fold {A} (h : gmap addr Promise)
    (function : addr → Promise → A → A) (l : list addr) (acc : A) : A :=
  match l with
  | [] => acc
  | a :: l' =>
      match h !! a with
      | Some p => visit_fold h function l' (function a p acc)
      | None => acc
      end
  end.

(** The change of the counter a call of a script asks for. *)
Definition holders_delta (o : op) : Z :=
  match o with
  | OpAdd _ _ _ => 1
  | OpMark _ _ _ => -1
  | OpCollect => 0
  | OpIncrement => 1
  | OpDecrement _ => -1
  end.

Definition holders (s : list op) : Z :=
  foldr (λ o c, holders_delta o + c) 0 s.

(** [mark_for_deletion] of the records [ms], one after the other. *)
Definition mark_each (spurious : nat) (self : std_thread_id) (ms : list addr)
  : list op :=
  OpMark spurious self <$> ms.

(** The registry at address 1 of thread 7 holds the records at 6 and 5, in
    this order; the record at 8 is constructed and not added; the counter
    is [rc]. *)
Definition two_records (rc : Z) : World :=
  mkWorld
    (<[6%positive := example_promise Running (Some 1%positive) (Some 5%positive) None None]>
       (<[5%positive := example_promise Running (Some 1%positive) None (Some 6%positive) None]>
          {[8%positive := example_promise Running None None None None]}))
    {[1%positive := mkThreadRegistry 7%positive None (Some 6%positive) rc]}
    [].

(** What a snapshot reads of a record, its address apart. *)
Definition observables (p : Promise) : Thread * SourceLocation * Waiter * State :=
  (thread p, source_location p, waiter p, state p).

(** [observables_kept h h']: every cell of [h] is a cell of [h'] with the
    same observable fields. *)
Definition observables_kept (h h' : gmap addr Promise) : Prop :=
  ∀ b p, h !! b = Some p →
         ∃ p', h' !! b = Some p' ∧ observables p' = observables p.

(** * Properties *)

(** ** Unfolding the monad *)

Lemma bind_Ok {A B} (m : M A) (k : A → M B) w a w' :
  m w = Ok a w' → bind m k w = k a w'.
Proof. unfold bind. by intros ->. Qed.

Lemma load_promise_Ok a p w :
  promises w !! a = Some p → load_promise a w = Ok p w.
Proof. unfold load_promise. by intros ->. Qed.

Lemma modify_promise_Ok a f p w :
  promises w !! a = Some p →
  modify_promise a f w = Ok tt (with_promises (<[a := f p]> (promises w)) w).
Proof. unfold modify_promise. by intros ->. Qed.

Lemma load_registry_Ok this r w :
  registries w !! this = Some r → load_registry this w = Ok r w.
Proof. unfold load_registry. by intros ->. Qed.

Lemma modify_registry_Ok this f r w :
  registries w !! this = Some r →
  modify_registry this f w
  = Ok tt (with_registries (<[this := f r]> (registries w)) w).
Proof. unfold modify_registry. by intros ->. Qed.

Lemma world_eta w : mkWorld (promises w) (registries w) (destroyed w) = w.
Proof. by destruct w. Qed.

Lemma bind_Ok_inv {A B} (m : M A) (k : A → M B) w b w' :
  bind m k w = Ok b w' → ∃ a w1, m w = Ok a w1 ∧ k a w1 = Ok b w'.
Proof. unfold bind. destruct (m w); naive_solver. Qed.

Lemma load_promise_inv a w p w' :
  load_promise a w = Ok p w' → w' = w ∧ promises w !! a = Some p.
Proof. unfold load_promise. destruct (promises w !! a); naive_solver. Qed.

Lemma modify_promise_inv a f w u w' :
  modify_promise a f w = Ok u w' →
  ∃ p, promises w !! a = Some p
       ∧ w' = with_promises (<[a := f p]> (promises w)) w.
Proof. unfold modify_promise. destruct (promises w !! a); naive_solver. Qed.

Lemma load_registry_inv this w r w' :
  load_registry this w = Ok r w' → w' = w ∧ registries w !! this = Some r.
Proof. unfold load_registry. destruct (registries w !! this); naive_solver. Qed.

Lemma modify_registry_inv this f w u w' :
  modify_registry this f w = Ok u w' →
  ∃ r, registries w !! this = Some r
       ∧ w' = with_registries (<[this := f r]> (registries w)) w.
Proof. unfold modify_registry. destruct (registries w !! this); naive_solver. Qed.

Lemma ADB_PROD_ASSERT_inv b w u w' :
  ADB_PROD_ASSERT b w = Ok u w' → b = true ∧ w' = w.
Proof. unfold ADB_PROD_ASSERT. destruct b; naive_solver. Qed.

(** ** What garbage collection leaves of the registry record *)

Lemma reg_kept_refl this w : reg_kept this w w.
Proof. intros r Hr. eauto. Qed.

Lemma reg_kept_trans this w1 w2 w3 :
  reg_kept this w1 w2 → reg_kept this w2 w3 → reg_kept this w1 w3.
Proof.
  intros H12 H23 r Hr.
  destruct (H12 r Hr) as (r2 & Hr2 & ? & ? & ?).
  destruct (H23 r2 Hr2) as (r3 & Hr3 & ? & ? & ?).
  exists r3. repeat split; congruence.
Qed.

Lemma reg_kept_promises this w h : reg_kept this w (with_promises h w).
Proof. intros r Hr. exists r. by simpl. Qed.

Lemma reg_kept_destroyed this w d : reg_kept this w (with_destroyed d w).
Proof. intros r Hr. exists r. by simpl. Qed.

Lemma reg_kept_promise_head this w v r0 :
  registries w !! this = Some r0 →
  reg_kept this w
    (with_registries (<[this := set_promise_head v r0]> (registries w)) w).
Proof.
  intros Hr0 r Hr. assert (r = r0) as -> by congruence.
  exists (set_promise_head v r0). simpl. by rewrite lookup_insert_eq.
Qed.

Lemma remove_reg_kept this c w u w' :
  remove this c w = Ok u w' → reg_kept this w w'.
Proof.
  unfold remove. intros H.
  apply bind_Ok_inv in H as (p & w1 & Hp & H).
  apply load_promise_inv in Hp as [-> Hp].
  apply bind_Ok_inv in H as ([] & w2 & H1 & H2).
  assert (reg_kept this w w2) as K12.
  { destruct (previous p).
    - apply modify_promise_inv in H1 as (? & _ & ->). apply reg_kept_promises.
    - apply modify_registry_inv in H1 as (r0 & Hr0 & ->).
      by apply reg_kept_promise_head. }
  eapply reg_kept_trans; [exact K12|].
  destruct (next p).
  - apply modify_promise_inv in H2 as (? & _ & ->). apply reg_kept_promises.
  - inversion H2. apply reg_kept_refl.
Qed.




(** ** The handle *)

(** C9: a default-constructed handle has the null id, its mutators return
    without touching the store, and its destruction marks nothing. *)
Theorem default_handle_noop (w : World) (aw : ptr) (sw : std_thread_id)
    (loc : std_source_location) (s : State) (spurious : nat)
    (self : std_thread_id) :
  AddToAsyncRegistry_id AddToAsyncRegistry_default = None
  ∧ set_promise_waiter_async AddToAsyncRegistry_default aw w = Ok tt w
  ∧ set_promise_waiter_sync AddToAsyncRegistry_default sw w = Ok tt w
  ∧ update_source_location AddToAsyncRegistry_default loc w = Ok tt w
  ∧ update_state AddToAsyncRegistry_default s w = Ok tt w
  ∧ AddToAsyncRegistry_destructor spurious self AddToAsyncRegistry_default w
    = Ok tt w.
Proof. repeat split. Qed.

(** C8: on an attached handle [update_source_location] stores the line of
    its argument in the record and changes nothing else: the other fields
    of the record, its id, the other records, the registries and the log of
    destroyed records are as before. *)
Theorem update_source_location_only_line (h : AddToAsyncRegistry) (a : addr)
    (p : Promise) (loc : std_source_location) (w : World) :
  promise_in_registry h = Some a →
  promises w !! a = Some p →
  ∃ w' p',
    update_source_location h loc w = Ok tt w'
    ∧ promises w' !! a = Some p'
    ∧ line (source_location p') = sl_line loc
    ∧ file_name (source_location p') = file_name (source_location p)
    ∧ function_name (source_location p') = function_name (source_location p)
    ∧ AddToAsyncRegistry_id h = Some a
    ∧ thread p' = thread p
    ∧ waiter p' = waiter p
    ∧ state p' = state p
    ∧ registry p' = registry p
    ∧ next p' = next p
    ∧ previous p' = previous p
    ∧ next_to_free p' = next_to_free p
    ∧ (∀ b, b ≠ a → promises w' !! b = promises w !! b)
    ∧ registries w' = registries w
    ∧ destroyed w' = destroyed w.
Proof.
  intros Hh Hp. unfold update_source_location, AddToAsyncRegistry_id. rewrite Hh.
  erewrite modify_promise_Ok by exact Hp.
  eexists _, _. split; [reflexivity|]. simpl.
  rewrite lookup_insert_eq. repeat split.
  intros b Hb. by rewrite lookup_insert_ne.
Qed.

(** C2, as amended: on an attached handle [update_state] stores its
    argument whatever the current state is; it checks nothing and does not
    abort, also when the new state does not advance the old one. *)
Theorem update_state_stores_unchecked (h : AddToAsyncRegistry) (a : addr)
    (p : Promise) (s2 : State) (w : World) :
  promise_in_registry h = Some a →
  promises w !! a = Some p →
  update_state h s2 w
  = Ok tt (with_promises (<[a := set_state s2 p]> (promises w)) w)
  ∧ state (set_state s2 p) = s2.
Proof.
  intros Hh Hp. unfold update_state. rewrite Hh.
  by erewrite modify_promise_Ok by exact Hp.
Qed.

(** ** [add] off the owner thread *)

(** C5: [add] called on a thread that is not the owning thread aborts on
    the assertion, in the store it was called in: nothing is inserted. *)
Theorem add_wrong_thread_fatal (self : std_thread_id) (this promise : addr)
    (r : ThreadRegistry) (w : World) :
  registries w !! this = Some r →
  self ≠ owning_thread r →
  add self this promise w = Fatal w.
Proof.
  intros Hr Hne. unfold add.
  erewrite bind_Ok by (by apply load_registry_Ok).
  unfold bind, ADB_PROD_ASSERT. by rewrite bool_decide_eq_false_2.
Qed.

(** ** A fresh registry *)

(** C10: [make] returns a registry at an unused address with counter zero,
    both heads null and the calling thread as owner; on it [for_promise]
    never calls its callback and [garbage_collect] destroys nothing and
    changes nothing. *)
Theorem make_fresh_registry (self : std_thread_id) (w : World) :
  ∃ this w',
    make self w = Ok this w'
    ∧ registries w !! this = None
    ∧ registries w' !! this = Some (mkThreadRegistry self None None 0)
    ∧ promises w' = promises w
    ∧ destroyed w' = destroyed w
    ∧ (∀ A (function : addr → Promise → A → A) (acc : A),
         for_promise this function acc w' = Ok acc w')
    ∧ visited this w' = Ok [] w'
    ∧ (∀ t, garbage_collect t this w' = Ok tt w').
Proof.
  unfold make. eexists _, _. split; [reflexivity|].
  set (this := fresh (dom (registries w))).
  assert (registries w !! this = None) as Hfresh.
  { apply not_elem_of_dom. apply is_fresh. }
  split; [exact Hfresh|]. simpl. rewrite lookup_insert_eq.
  split; [done|]. split; [done|]. split; [done|].
  assert (∀ A (function : addr → Promise → A → A) (acc : A),
            for_promise this function acc
              (with_registries
                 (<[this := mkThreadRegistry self None None 0]> (registries w)) w)
            = Ok acc
                (with_registries
                   (<[this := mkThreadRegistry self None None 0]> (registries w)) w))
    as Hfor.
  { intros A function acc. unfold for_promise.
    erewrite bind_Ok by (apply load_registry_Ok; simpl; apply lookup_insert_eq).
    unfold bind, get_world. simpl. by destruct (size (promises w)). }
  split; [exact Hfor|]. split; [apply Hfor|].
  intros t. unfold garbage_collect.
  erewrite bind_Ok by (apply load_registry_Ok; simpl; apply lookup_insert_eq).
  simpl. unfold bind at 1. simpl.
  erewrite bind_Ok by (apply modify_registry_Ok; simpl; apply lookup_insert_eq).
  unfold bind, get_world. simpl.
  rewrite insert_insert_eq. unfold set_free_head. simpl.
  by destruct (size (promises w)).
Qed.

(** ** Garbage collection twice *)


(** ** Frames of the list predicates *)

Lemma dll_frame h h' this prev l :
  (∀ a, a ∈ l → h' !! a = h !! a) → dll h this prev l → dll h' this prev l.
Proof.
  revert prev. induction l as [|a l IH]; intros prev Hf; simpl; [done|].
  intros (p & Hp & ? & ? & ? & Hl). exists p.
  rewrite Hf by set_solver. repeat split; try done.
  apply IH; [|done]. intros b Hb. apply Hf. set_solver.
Qed.

Lemma free_chain_frame h h' l :
  (∀ a, a ∈ l → h' !! a = h !! a) → free_chain h l → free_chain h' l.
Proof.
  induction l as [|a l IH]; intros Hf; simpl; [done|].
  intros (p & Hp & ? & Hl). exists p.
  rewrite Hf by set_solver. repeat split; try done.
  apply IH; [|done]. intros b Hb. apply Hf. set_solver.
Qed.

Lemma dll_lookup h this prev l a :
  dll h this prev l → a ∈ l → ∃ p, h !! a = Some p ∧ registry p = Some this.
Proof.
  revert prev. induction l as [|b l IH]; intros prev; simpl; [set_solver|].
  intros (p & Hp & ? & ? & ? & Hl) [->|Ha]%elem_of_cons; eauto.
Qed.

Lemma links_kept_refl h : links_kept h h.
Proof. intros b p Hp. eauto. Qed.

Lemma links_kept_trans h1 h2 h3 :
  links_kept h1 h2 → links_kept h2 h3 → links_kept h1 h3.
Proof.
  intros H12 H23 b p Hp.
  destruct (H12 b p Hp) as (p2 & Hp2 & ? & ? & ?).
  destruct (H23 b p2 Hp2) as (p3 & Hp3 & ? & ? & ?).
  exists p3. repeat split; congruence.
Qed.

Lemma links_kept_insert h a p p' :
  h !! a = Some p →
  next_to_free p' = next_to_free p → registry p' = registry p →
  state p' = state p →
  links_kept h (<[a := p']> h).
Proof.
  intros Ha ? ? ? b q Hq. destruct (decide (b = a)) as [->|Hne].
  - exists p'. rewrite lookup_insert_eq. assert (q = p) as -> by congruence. done.
  - exists q. by rewrite lookup_insert_ne.
Qed.

Lemma free_chain_links_kept h h' l :
  links_kept h h' → free_chain h l → free_chain h' l.
Proof.
  intros Hk. induction l as [|a l IH]; simpl; [done|].
  intros (p & Hp & Hn & Hl). destruct (Hk a p Hp) as (p' & Hp' & Hn' & _).
  exists p'. repeat split; [done|congruence|by apply IH].
Qed.

(** Changing [next_to_free] of a cell does not disturb the live list. *)
Lemma dll_insert_same_links h this prev l a p p' :
  h !! a = Some p →
  next p' = next p → previous p' = previous p → registry p' = registry p →
  dll h this prev l → dll (<[a := p']> h) this prev l.
Proof.
  intros Ha Hn Hp Hr. revert prev.
  induction l as [|b l IH]; intros prev; simpl; [done|].
  intros (q & Hq & ? & ? & ? & Hl). destruct (decide (b = a)) as [->|Hne].
  - exists p'. rewrite lookup_insert_eq. assert (q = p) as -> by congruence.
    repeat split; try congruence. by apply IH.
  - exists q. rewrite lookup_insert_ne by done. repeat split; try done. by apply IH.
Qed.

(** The cells of a list without repetition are cells of the store. *)
Lemma length_le_size (h : gmap addr Promise) (l : list addr) :
  NoDup l → (∀ a, a ∈ l → is_Some (h !! a)) → (length l ≤ size h)%nat.
Proof.
  intros Hnd Hin. rewrite <- size_dom. unfold size, set_size. simpl.
  apply submseteq_length, NoDup_submseteq; [done|].
  intros a Ha. apply elem_of_elements, elem_of_dom. by apply Hin.
Qed.

(** ** Traversal *)

Lemma for_promise_loop_visits h this :
  ∀ l prev fuel acc w,
    promises w = h → dll h this prev l → (length l ≤ fuel)%nat →
    for_promise_loop fuel (λ a (_ : Promise) (acc : list addr), acc ++ [a])
      (head l) acc w
    = Ok (acc ++ l) w.
Proof.
  induction l as [|a l IH]; intros prev fuel acc w Hw Hl Hfuel; simpl.
  - rewrite app_nil_r. by destruct fuel.
  - destruct fuel as [|fuel]; [simpl in Hfuel; lia|].
    destruct Hl as (p & Hp & ? & Hn & ? & Hl). simpl.
    erewrite bind_Ok by (apply load_promise_Ok; by rewrite Hw).
    rewrite Hn. erewrite IH; [|done|done|simpl in Hfuel; lia].
    by rewrite <- app_assoc.
Qed.

Lemma visited_spec w this live free :
  Rep w this live free → visited this w = Ok live w.
Proof.
  intros [(r & Hr & Hh & _) Hl _ Hnd _ _]. unfold visited, for_promise.
  erewrite bind_Ok by (by apply load_registry_Ok).
  unfold bind at 1, get_world. rewrite Hh.
  erewrite for_promise_loop_visits; [done|done|done|].
  apply length_le_size; [done|]. intros a Ha.
  destruct (dll_lookup _ _ _ _ _ Hl Ha) as (p & -> & _). eauto.
Qed.

(** ** [add] on the owner thread *)

Lemma add_spec w this live free r a p :
  Rep w this live free →
  registries w !! this = Some r →
  promises w !! a = Some p → previous p = None → a ∉ live →
  ∃ w' r',
    add (owning_thread r) this a w = Ok tt w'
    ∧ Rep w' this (a :: live) free
    ∧ registries w' !! this = Some r'
    ∧ owning_thread r' = owning_thread r
    ∧ ref_count r' = wrap_size_t (ref_count r + 1)
    ∧ destroyed w' = destroyed w
    ∧ (∀ x, x ≠ a → x ∉ live → promises w' !! x = promises w !! x).
Proof.
  intros [(r0 & Hr0 & Hh & Hfh) Hl Hf Hnd Hndf Hsub] Hr Hp Hprev Ha.
  assert (r0 = r) as -> by congruence.
  unfold add.
  erewrite bind_Ok by (by apply load_registry_Ok).
  unfold ADB_PROD_ASSERT. rewrite bool_decide_eq_true_2 by done.
  unfold bind at 1.
  erewrite bind_Ok by (by apply modify_promise_Ok).
  erewrite bind_Ok
    by (apply modify_promise_Ok; simpl; apply lookup_insert_eq).
  simpl. rewrite insert_insert_eq.
  set (pa := set_registry (Some this) (set_next (promise_head r) p)).
  set (h2 := <[a := pa]> (promises w)).
  assert (free_chain h2 free) as Hf2.
  { eapply free_chain_frame; [|exact Hf]. intros b Hb. unfold h2.
    apply lookup_insert_ne. intros ->. by apply Ha, Hsub. }
  destruct live as [|b l'].
  - (* the list was empty *)
    rewrite Hh. simpl. unfold bind at 1, ret.
    erewrite bind_Ok by (by apply modify_registry_Ok).
    unfold increment_ref_count.
    erewrite modify_registry_Ok by (simpl; apply lookup_insert_eq).
    simpl. rewrite insert_insert_eq.
    eexists _, _. split; [reflexivity|]. simpl.
    split; [|rewrite lookup_insert_eq; repeat split; try done;
             intros x Hx _; unfold h2; by rewrite lookup_insert_ne].
    constructor; simpl; try done.
    + eexists. rewrite lookup_insert_eq. split; [done|]. simpl.
      split; [done|]. by rewrite Hfh.
    + exists pa. fold h2. unfold h2 at 1. rewrite lookup_insert_eq.
      subst pa. simpl. by rewrite Hprev, Hh.
    + apply NoDup_singleton.
    + intros c Hc. apply Hsub in Hc. set_solver.
  - (* [b] was the head *)
    simpl in Hl. destruct Hl as (pb & Hpb & Hpbp & Hpbn & Hpbr & Hl').
    assert (a ≠ b) as Hab by set_solver.
    apply NoDup_cons in Hnd as [Hb Hnd'].
    rewrite Hh. simpl.
    erewrite bind_Ok
      by (apply modify_promise_Ok; simpl; unfold h2;
          rewrite lookup_insert_ne by done; exact Hpb).
    erewrite bind_Ok by (by apply modify_registry_Ok).
    unfold increment_ref_count.
    erewrite modify_registry_Ok by (simpl; apply lookup_insert_eq).
    simpl. rewrite insert_insert_eq. fold h2.
    eexists _, _. split; [reflexivity|]. simpl.
    split; [|rewrite lookup_insert_eq; repeat split; try done;
             intros x Hx Hxl; unfold h2;
             rewrite !lookup_insert_ne; [done|done|set_solver]].
    constructor; simpl.
    + eexists. rewrite lookup_insert_eq. split; [done|]. simpl.
      split; [done|]. by rewrite Hfh.
    + exists pa. rewrite lookup_insert_ne by done.
      unfold h2 at 1. rewrite lookup_insert_eq.
      subst pa. simpl. rewrite Hprev. repeat split; try done.
      exists (set_previous (Some a) pb). rewrite lookup_insert_eq.
      simpl. repeat split; try done.
      eapply dll_frame; [|exact Hl']. intros c Hc.
      rewrite lookup_insert_ne by (intros ->; done).
      unfold h2. apply lookup_insert_ne. intros ->. apply Ha. set_solver.
    + eapply free_chain_links_kept; [|exact Hf2].
      apply links_kept_insert with (p := pb); [|reflexivity..].
      unfold h2. by rewrite lookup_insert_ne.
    + apply NoDup_cons. split; [done|]. by apply NoDup_cons.
    + done.
    + intros c Hc. apply elem_of_cons. right. by apply Hsub.
Qed.

(** ** [mark_for_deletion] *)

Lemma set_next_to_free_twice v p :
  set_next_to_free v (set_next_to_free v p) = set_next_to_free v p.
Proof. by destruct p. Qed.

Lemma compare_exchange_weak_spurious this expected desired r w :
  registries w !! this = Some r →
  compare_exchange_weak true this expected desired w = Ok (false, free_head r) w.
Proof.
  intros Hr. unfold compare_exchange_weak.
  erewrite bind_Ok by (by apply load_registry_Ok).
  by rewrite andb_false_r.
Qed.

Lemma compare_exchange_weak_success this desired r w :
  registries w !! this = Some r →
  compare_exchange_weak false this (free_head r) desired w
  = Ok (true, free_head r)
       (with_registries (<[this := set_free_head desired r]> (registries w)) w).
Proof.
  intros Hr. unfold compare_exchange_weak.
  erewrite bind_Ok by (by apply load_registry_Ok).
  rewrite bool_decide_eq_true_2 by done. simpl.
  by erewrite bind_Ok by (by apply modify_registry_Ok).
Qed.

(** The loop ends with the record linked in front of the free list,
    however often the weak compare-exchange fails spuriously. *)
Lemma mark_for_deletion_loop_Ok n this a :
  ∀ w p r,
    promises w !! a = Some p → registries w !! this = Some r →
    mark_for_deletion_loop n this a (free_head r) w
    = Ok tt (with_registries
               (<[this := set_free_head (Some a) r]> (registries w))
               (with_promises
                  (<[a := set_next_to_free (free_head r) p]> (promises w)) w)).
Proof.
  induction n as [|n IH]; intros w p r Hp Hr; simpl.
  - erewrite bind_Ok by (by apply modify_promise_Ok).
    by erewrite bind_Ok by (by apply compare_exchange_weak_success).
  - erewrite bind_Ok by (by apply modify_promise_Ok).
    erewrite bind_Ok by (by apply compare_exchange_weak_spurious).
    simpl. erewrite IH; [|simpl; apply lookup_insert_eq|done].
    simpl. by rewrite insert_insert_eq, set_next_to_free_twice.
Qed.

Lemma Rep_link w this live free a p r :
  Rep w this live free →
  promises w !! a = Some p → registries w !! this = Some r →
  a ∈ live → a ∉ free →
  Rep (with_registries
         (<[this := set_free_head (Some a) r]> (registries w))
         (with_promises
            (<[a := set_next_to_free (free_head r) p]> (promises w)) w))
      this live (a :: free).
Proof.
  intros [(r0 & Hr0 & Hh & Hfh) Hl Hf Hnd Hndf Hsub] Hp Hr Ha Hna.
  assert (r0 = r) as -> by congruence.
  constructor; simpl.
  - eexists. rewrite lookup_insert_eq. by repeat split.
  - eapply dll_insert_same_links; [exact Hp|done..].
  - eexists. rewrite lookup_insert_eq. split; [done|]. simpl.
    split; [done|]. eapply free_chain_frame; [|exact Hf].
    intros b Hb. apply lookup_insert_ne. by intros ->.
  - done.
  - by apply NoDup_cons.
  - intros b [->|Hb]%elem_of_cons; auto.
Qed.

Lemma Rep_set_ref_count w this live free r v :
  Rep w this live free → registries w !! this = Some r →
  Rep (with_registries (<[this := set_ref_count v r]> (registries w)) w)
      this live free.
Proof.
  intros [(r0 & Hr0 & Hh & Hfh) Hl Hf Hnd Hndf Hsub] Hr.
  assert (r0 = r) as -> by congruence.
  constructor; simpl; try done.
  eexists. rewrite lookup_insert_eq. by repeat split.
Qed.

(** ** [decrement_ref_count] *)

Lemma decrement_ref_count_not_last self this w r :
  registries w !! this = Some r → ref_count r ≠ 1 →
  decrement_ref_count self this w
  = Ok tt (with_registries
             (<[this := set_ref_count (wrap_size_t (ref_count r - 1)) r]>
                (registries w)) w).
Proof.
  intros Hr Hne. unfold decrement_ref_count.
  erewrite bind_Ok by (by apply load_registry_Ok).
  erewrite bind_Ok by (by apply modify_registry_Ok).
  by rewrite bool_decide_eq_false_2.
Qed.

Lemma decrement_ref_count_last self this w r :
  registries w !! this = Some r → ref_count r = 1 →
  decrement_ref_count self this w
  = (do! garbage_collect self this in delete_registry this)
      (with_registries (<[this := set_ref_count 0 r]> (registries w)) w).
Proof.
  intros Hr H1. unfold decrement_ref_count.
  erewrite bind_Ok by (by apply load_registry_Ok).
  erewrite bind_Ok by (by apply modify_registry_Ok).
  rewrite bool_decide_eq_true_2 by done. by rewrite H1.
Qed.

(** ** [remove] *)

Lemma head_app_cons (l1 : list addr) x t t' :
  head (l1 ++ x :: t) = head (l1 ++ x :: t').
Proof. by destruct l1. Qed.

(** Unlinking [a] behind its predecessor [x]: the two stores of [remove]
    turn the list [l1 ++ x :: a :: l2] into [l1 ++ x :: l2]. *)
Lemma dll_unlink_middle h this x a l2 :
  ∀ l1 prev,
    NoDup (l1 ++ x :: a :: l2) → dll h this prev (l1 ++ x :: a :: l2) →
    ∃ px p,
      h !! x = Some px ∧ h !! a = Some p
      ∧ previous p = Some x ∧ next p = head l2
      ∧ match l2 with
        | [] => dll (<[x := set_next None px]> h) this prev (l1 ++ [x])
        | b :: l3 =>
            ∃ pb, <[x := set_next (Some b) px]> h !! b = Some pb
                  ∧ dll (<[b := set_previous (Some x) pb]>
                           (<[x := set_next (Some b) px]> h))
                        this prev (l1 ++ x :: b :: l3)
        end.
Proof.
  induction l1 as [|y l1 IH]; intros prev Hnd Hl.
  - simpl in Hnd, Hl.
    destruct Hl as (px & Hx & Hxp & Hxn & Hxr & p & Ha & Hap & Han & Har & Hl2).
    apply NoDup_cons in Hnd as [Hx_notin Hnd].
    apply NoDup_cons in Hnd as [Ha_notin Hnd].
    exists px, p. repeat split; try done.
    destruct l2 as [|b l3]; simpl.
    + exists (set_next None px). rewrite lookup_insert_eq. by repeat split.
    + destruct Hl2 as (pb & Hb & Hbp & Hbn & Hbr & Hl3).
      apply NoDup_cons in Hnd as [Hb_notin Hnd].
      assert (x ≠ b) as Hxb by set_solver.
      exists pb. rewrite lookup_insert_ne by done. split; [done|].
      exists (set_next (Some b) px).
      rewrite lookup_insert_ne by done. rewrite lookup_insert_eq.
      repeat split; try done.
      exists (set_previous (Some x) pb). rewrite lookup_insert_eq.
      repeat split; try done.
      eapply dll_frame; [|exact Hl3]. intros c Hc.
      rewrite !lookup_insert_ne; [done|set_solver..].
  - simpl in Hnd, Hl. destruct Hl as (py & Hy & Hyp & Hyn & Hyr & Hl).
    apply NoDup_cons in Hnd as [Hy_notin Hnd].
    destruct (IH (Some y) Hnd Hl) as (px & p & Hx & Ha & Hap & Han & Hres).
    exists px, p. repeat split; try done.
    assert (y ≠ x) as Hyx by set_solver.
    destruct l2 as [|b l3]; simpl.
    + exists py. rewrite lookup_insert_ne by done.
      repeat split; try done.
      rewrite Hyn. by destruct l1.
    + destruct Hres as (pb & Hb & Hres).
      assert (y ≠ b) as Hyb by set_solver.
      exists pb. split; [done|].
      exists py. rewrite !lookup_insert_ne by done.
      repeat split; try done.
      rewrite Hyn. apply head_app_cons.
Qed.

Lemma remove_spec this w r l1 a l2 :
  registries w !! this = Some r →
  promise_head r = head (l1 ++ a :: l2) →
  dll (promises w) this None (l1 ++ a :: l2) →
  NoDup (l1 ++ a :: l2) →
  ∃ w' r',
    remove this a w = Ok tt w'
    ∧ registries w' !! this = Some r'
    ∧ promise_head r' = head (l1 ++ l2)
    ∧ dll (promises w') this None (l1 ++ l2)
    ∧ links_kept (promises w) (promises w')
    ∧ destroyed w' = destroyed w.
Proof.
  intros Hr Hh Hl Hnd. unfold remove.
  destruct l1 as [|y l1 _] using rev_ind.
  - (* [a] is the head *)
    simpl in *. destruct Hl as (p & Ha & Hap & Han & Har & Hl2).
    apply NoDup_cons in Hnd as [Ha_notin Hnd].
    erewrite bind_Ok by (by apply load_promise_Ok).
    rewrite Hap, Han.
    erewrite bind_Ok by (by apply modify_registry_Ok).
    destruct l2 as [|b l3]; simpl.
    + eexists _, _. split; [reflexivity|]. simpl.
      rewrite lookup_insert_eq. repeat split; try done. apply links_kept_refl.
    + destruct Hl2 as (pb & Hb & Hbp & Hbn & Hbr & Hl3).
      apply NoDup_cons in Hnd as [Hb_notin Hnd].
      erewrite modify_promise_Ok by (simpl; exact Hb).
      eexists _, _. split; [reflexivity|]. simpl.
      rewrite lookup_insert_eq. repeat split; try done.
      * exists (set_previous None pb). rewrite lookup_insert_eq.
        repeat split; try done.
        eapply dll_frame; [|exact Hl3]. intros c Hc.
        rewrite lookup_insert_ne; [done|set_solver].
      * by apply links_kept_insert with (p := pb).
  - (* [y] precedes [a] *)
    rewrite <- app_assoc in Hl, Hnd, Hh. simpl in Hl, Hnd, Hh.
    destruct (dll_unlink_middle _ _ _ _ _ _ _ Hnd Hl)
      as (py & p & Hy & Ha & Hap & Han & Hres).
    erewrite bind_Ok by (by apply load_promise_Ok).
    rewrite Hap, Han.
    erewrite bind_Ok by (by apply modify_promise_Ok).
    rewrite <- app_assoc. simpl.
    destruct l2 as [|b l3]; simpl.
    + eexists _, _. split; [reflexivity|]. simpl.
      split; [exact Hr|]. split; [by rewrite Hh; apply head_app_cons|].
      split; [done|]. split; [|done].
      by apply links_kept_insert with (p := py).
    + destruct Hres as (pb & Hb & Hres).
      erewrite modify_promise_Ok by (simpl; exact Hb).
      eexists _, _. split; [reflexivity|]. simpl.
      split; [exact Hr|]. split; [by rewrite Hh; apply head_app_cons|].
      split; [done|]. split; [|done].
      apply links_kept_trans with (<[y := set_next (Some b) py]> (promises w)).
      * by apply links_kept_insert with (p := py).
      * by apply links_kept_insert with (p := pb).
Qed.

(** ** [garbage_collect] *)

Lemma destroy_Ok a p w :
  promises w !! a = Some p →
  destroy a w
  = Ok tt (with_destroyed (destroyed w ++ [a])
             (with_promises (delete a (promises w)) w)).
Proof.
  intros Hp. unfold destroy. by erewrite bind_Ok by (by apply load_promise_Ok).
Qed.

Lemma destroy_inv a w u w' :
  destroy a w = Ok u w' →
  w' = with_destroyed (destroyed w ++ [a])
         (with_promises (delete a (promises w)) w).
Proof.
  unfold destroy. intros H.
  apply bind_Ok_inv in H as (p & w1 & Hp & H).
  apply load_promise_inv in Hp as [-> _]. by inversion H.
Qed.

(** The loop returns only when it starts at the null pointer: after
    [current->destroy()] its increment reads [current->next_to_free] of the
    record that has just been destroyed. *)
Lemma garbage_collect_loop_Ok_inv fuel this cur w u w' :
  garbage_collect_loop fuel this cur w = Ok u w' → cur = None ∧ w' = w.
Proof.
  destruct cur as [c|].
  - destruct fuel as [|fuel]; simpl; [discriminate|]. intros H.
    apply bind_Ok_inv in H as ([] & w1 & H1 & H).
    apply bind_Ok_inv in H as ([] & w2 & H2 & H).
    apply bind_Ok_inv in H as (p & w3 & H3 & _).
    apply destroy_inv in H2 as ->.
    apply load_promise_inv in H3 as [_ H3]. simpl in H3.
    by rewrite lookup_delete_eq in H3.
  - destruct fuel; simpl; intros H; by inversion H.
Qed.

Lemma set_free_head_same r : free_head r = None → set_free_head None r = r.
Proof. destruct r. simpl. by intros ->. Qed.

(** A collection that returns found the free list empty and changed
    nothing. *)
Lemma garbage_collect_Ok_inv self this w u w' :
  garbage_collect self this w = Ok u w' →
  w' = w
  ∧ ∃ r, registries w !! this = Some r ∧ free_head r = None
         ∧ bool_decide (ref_count r = 0)
           || bool_decide (self = owning_thread r) = true.
Proof.
  unfold garbage_collect. intros H.
  apply bind_Ok_inv in H as (r & w1 & Hr & H).
  apply load_registry_inv in Hr as [-> Hr].
  apply bind_Ok_inv in H as ([] & w1 & Ha & H).
  apply ADB_PROD_ASSERT_inv in Ha as [Ha ->].
  apply bind_Ok_inv in H as ([] & w1 & Hm & H).
  apply modify_registry_inv in Hm as (r0 & Hr0 & ->).
  assert (r0 = r) as -> by congruence.
  apply bind_Ok_inv in H as (w2 & w3 & Hg & H).
  inversion Hg; subst w2 w3; clear Hg.
  apply garbage_collect_loop_Ok_inv in H as [Hf ->].
  split; [|by exists r].
  rewrite set_free_head_same by done. rewrite insert_id by done.
  unfold with_registries. apply world_eta.
Qed.

Lemma garbage_collect_empty self this w r :
  registries w !! this = Some r → free_head r = None →
  bool_decide (ref_count r = 0) || bool_decide (self = owning_thread r) = true →
  garbage_collect self this w = Ok tt w.
Proof.
  intros Hr Hf Ha. unfold garbage_collect.
  erewrite bind_Ok by (by apply load_registry_Ok).
  rewrite Ha. unfold ADB_PROD_ASSERT, bind at 1.
  erewrite bind_Ok by (by apply modify_registry_Ok).
  unfold bind, get_world. rewrite Hf. simpl.
  rewrite set_free_head_same by done. rewrite insert_id by done.
  unfold with_registries. rewrite world_eta.
  by destruct (size (promises w)).
Qed.

(** A collection of a non-empty free list unlinks the first record,
    destroys it and then dereferences it. *)
Lemma garbage_collect_nonempty self this w r live free :
  Rep w this live free → registries w !! this = Some r →
  bool_decide (ref_count r = 0) || bool_decide (self = owning_thread r) = true →
  free ≠ [] →
  garbage_collect self this w = Undefined.
Proof.
  intros [(r0 & Hr0 & Hh & Hfh) Hl Hf Hnd Hndf Hsub] Hr Ha Hne.
  assert (r0 = r) as -> by congruence.
  destruct free as [|c f]; [done|]. clear Hne.
  destruct Hf as (p & Hp & _ & _).
  destruct (list_elem_of_split live c) as (l1 & l2 & ->); [apply Hsub; set_solver|].
  set (w0 := with_registries (<[this := set_free_head None r]> (registries w)) w).
  destruct (remove_spec this w0 (set_free_head None r) l1 c l2)
    as (w1 & r1 & Hrm & _ & _ & _ & Hk1 & _); try done.
  { simpl. apply lookup_insert_eq. }
  destruct (Hk1 c p Hp) as (p1 & Hp1 & _).
  assert (size (promises w) ≠ 0%nat) as Hsize.
  { intros Hz. apply map_size_empty_inv in Hz. rewrite Hz in Hp.
    by rewrite lookup_empty in Hp. }
  unfold garbage_collect.
  erewrite bind_Ok by (by apply load_registry_Ok).
  rewrite Ha. unfold ADB_PROD_ASSERT, bind at 1.
  erewrite bind_Ok by (by apply modify_registry_Ok).
  fold w0. unfold bind at 1, get_world. rewrite Hfh. simpl.
  destruct (size (promises w)) as [|fuel]; [done|]. simpl.
  erewrite bind_Ok by exact Hrm.
  erewrite bind_Ok by (by eapply destroy_Ok).
  unfold bind, load_promise. simpl. by rewrite lookup_delete_eq.
Qed.

(** ** [make] *)

Lemma make_spec owner w0 this w1 :
  make owner w0 = Ok this w1 →
  Rep w1 this [] []
  ∧ registries w1 !! this = Some (mkThreadRegistry owner None None 0)
  ∧ promises w1 = promises w0
  ∧ destroyed w1 = destroyed w0.
Proof.
  unfold make. intros H. inversion H; subst; clear H. simpl.
  rewrite lookup_insert_eq. repeat split; try done; try apply NoDup_nil_2.
  eexists. simpl. rewrite lookup_insert_eq. by repeat split.
Qed.

(** [mark_for_deletion] is the decrement of the counter in the store where
    the record has been linked in front of the free list. *)
Lemma mark_for_deletion_unfold n self this a p r w :
  promises w !! a = Some p → registry p = Some this →
  registries w !! this = Some r →
  mark_for_deletion n self this a w
  = decrement_ref_count self this
      (with_registries
         (<[this := set_free_head (Some a) r]> (registries w))
         (with_promises
            (<[a := set_next_to_free (free_head r) p]> (promises w)) w)).
Proof.
  intros Hp Hreg Hr. unfold mark_for_deletion.
  erewrite bind_Ok by (by apply load_promise_Ok).
  unfold ADB_PROD_ASSERT. rewrite bool_decide_eq_true_2 by done.
  unfold bind at 1.
  erewrite bind_Ok by (by apply load_registry_Ok).
  by erewrite bind_Ok by (by apply mark_for_deletion_loop_Ok).
Qed.

(** A mark that does not take the counter to zero. *)
Lemma mark_for_deletion_spec n self this w live free a r :
  Rep w this live free → registries w !! this = Some r →
  a ∈ live → a ∉ free → ref_count r ≠ 1 →
  ∃ w' r',
    mark_for_deletion n self this a w = Ok tt w'
    ∧ Rep w' this live (a :: free)
    ∧ registries w' !! this = Some r'
    ∧ owning_thread r' = owning_thread r
    ∧ ref_count r' = wrap_size_t (ref_count r - 1)
    ∧ destroyed w' = destroyed w.
Proof.
  intros HRep Hr Ha Hna Hrc.
  destruct (dll_lookup _ _ _ _ _ (rep_live _ _ _ _ HRep) Ha) as (p & Hp & Hreg).
  erewrite mark_for_deletion_unfold by done.
  erewrite decrement_ref_count_not_last;
    [|simpl; apply lookup_insert_eq|done].
  eexists _, _. split; [reflexivity|]. simpl.
  rewrite insert_insert_eq, lookup_insert_eq. split; [|by repeat split].
  pose proof (Rep_link _ _ _ _ _ _ _ HRep Hp Hr Ha Hna) as HRep'.
  eapply Rep_set_ref_count in HRep'; [|simpl; apply lookup_insert_eq].
  simpl in HRep'. rewrite insert_insert_eq in HRep'. exact HRep'.
Qed.

(** ** The single-thread lifecycle *)

(** C3: on a fresh registry the owner adds A, B and C; a traversal visits
    C, B, A.  B is marked for deletion (by any thread, with any number of
    spurious failures of the compare-exchange); a traversal still visits
    C, B, A.  The garbage collection on the owning thread then unlinks B,
    destroys it and reads [next_to_free] of the destroyed B in the
    increment of its loop: it does not return, it is [Undefined]. *)
Theorem single_thread_lifecycle_collect_undefined (owner : std_thread_id)
    (w0 w1 : World) (this a b c : addr) (pa pb pc : Promise) (n : nat)
    (t : std_thread_id) :
  make owner w0 = Ok this w1 →
  a ≠ b → a ≠ c → b ≠ c →
  promises w0 !! a = Some pa → previous pa = None →
  promises w0 !! b = Some pb → previous pb = None →
  promises w0 !! c = Some pc → previous pc = None →
  ∃ w2 w3,
    (do! add owner this a in do! add owner this b in add owner this c) w1
    = Ok tt w2
    ∧ visited this w2 = Ok [c; b; a] w2
    ∧ mark_for_deletion n t this b w2 = Ok tt w3
    ∧ visited this w3 = Ok [c; b; a] w3
    ∧ garbage_collect owner this w3 = Undefined.
Proof.
  intros Hmake Hab Hac Hbc Ha Hpa Hb Hpb Hc Hpc.
  apply make_spec in Hmake as (HRep1 & Hr1 & Hp1 & Hd1).
  rewrite <- Hp1 in Ha, Hb, Hc.
  destruct (add_spec _ _ _ _ _ a pa HRep1 Hr1 Ha Hpa)
    as (wa & ra & Hadd_a & HRepa & Hra & Hoa & Hca & Hda & Hfa); [set_solver|].
  simpl in Hoa, Hca.
  rewrite <- Hfa in Hb, Hc by (done || set_solver).
  destruct (add_spec _ _ _ _ _ b pb HRepa Hra Hb Hpb)
    as (wb & rb & Hadd_b & HRepb & Hrb & Hob & Hcb & Hdb & Hfb); [set_solver|].
  rewrite <- Hfb in Hc by (done || set_solver).
  destruct (add_spec _ _ _ _ _ c pc HRepb Hrb Hc Hpc)
    as (wc & rc & Hadd_c & HRepc & Hrc & Hoc & Hcc & Hdc & _); [set_solver|].
  rewrite Hoa in Hadd_b. rewrite Hob, Hoa in Hadd_c.
  assert (ref_count rc = 3) as Hrc3.
  { rewrite Hcc, Hcb, Hca. reflexivity. }
  destruct (mark_for_deletion_spec n t this wc [c; b; a] [] b rc HRepc Hrc)
    as (wm & rm & Hmark & HRepm & Hrm & Hom & Hcm & Hdm);
    [set_solver|set_solver|lia|].
  exists wc, wm. split.
  { erewrite bind_Ok by exact Hadd_a. erewrite bind_Ok by exact Hadd_b. exact Hadd_c. }
  split; [by eapply visited_spec|]. split; [exact Hmark|].
  split; [by eapply visited_spec|].
  eapply garbage_collect_nonempty; [exact HRepm|exact Hrm| |done].
  rewrite Hom, Hoc, Hob, Hoa.
  rewrite (bool_decide_eq_true_2 (owner = owner)) by done. apply orb_true_r.
Qed.

(** ** The last and the other decrements *)

Lemma decrement_ref_count_spec self this w live free r :
  Rep w this live free → registries w !! this = Some r →
  decrement_ref_count self this w
  = if decide (ref_count r = 1)
    then match free with
         | [] => Ok tt (with_registries (delete this (registries w)) w)
         | _ :: _ => Undefined
         end
    else Ok tt (with_registries
                  (<[this := set_ref_count (wrap_size_t (ref_count r - 1)) r]>
                     (registries w)) w).
Proof.
  intros HRep Hr. destruct (decide (ref_count r = 1)) as [H1|Hne];
    [|by apply decrement_ref_count_not_last].
  erewrite decrement_ref_count_last by done.
  pose proof (Rep_set_ref_count _ _ _ _ _ 0 HRep Hr) as HRep0.
  destruct (rep_registry _ _ _ _ HRep) as (r0 & Hr0 & _ & Hfh).
  assert (r0 = r) as -> by congruence.
  destruct free as [|c f].
  - erewrite bind_Ok
      by (eapply garbage_collect_empty;
          [simpl; apply lookup_insert_eq|exact Hfh|done]).
    unfold delete_registry.
    erewrite bind_Ok by (apply load_registry_Ok; simpl; apply lookup_insert_eq).
    simpl. by rewrite delete_insert_eq.
  - unfold bind.
    by erewrite garbage_collect_nonempty;
      [|exact HRep0|simpl; apply lookup_insert_eq|done|done].
Qed.

(** ** Scripts keep the invariant *)

Section Scripts.
Variables (owner : std_thread_id) (this : addr).

Lemma Rep_frame_promises w live free h' :
  Rep w this live free →
  (∀ x, x ∈ live → h' !! x = promises w !! x) →
  Rep (with_promises h' w) this live free.
Proof.
  intros [Hreg Hl Hf Hnd Hndf Hsub] Hfr. constructor; simpl; try done.
  - by eapply dll_frame.
  - eapply free_chain_frame; [|exact Hf]. auto.
Qed.

Lemma Inv_deleted A K w : registries w !! this = None → Inv owner this A K w.
Proof. intros Hnone r Hr. congruence. Qed.

Lemma step_add A K w r a t loc w' :
  Inv owner this A K w → registries w !! this = Some r → a ∉ A →
  run_op owner this (OpAdd a t loc) w = Ok tt w' →
  Inv owner this ({[a]} ∪ A) K w' ∧ destroyed w' = destroyed w.
Proof.
  intros HInv Hr Ha Hop.
  destruct (HInv r Hr) as (Ho & live & free & HRep & Hlive & Hmarked & Hnd & HKA).
  assert (a ∉ live) as Hal by (intros Hin; apply Hlive in Hin; tauto).
  assert (a ∉ destroyed w) as Had.
  { intros Hin. apply Ha, HKA, Hmarked. by right. }
  set (w1 := with_promises (<[a := new_Promise t loc]> (promises w)) w) in *.
  assert (Rep w1 this live free) as HRep1.
  { apply Rep_frame_promises; [done|]. intros x Hx.
    apply lookup_insert_ne. by intros ->. }
  destruct (add_spec w1 this live free r a (new_Promise t loc) HRep1)
    as (w'' & r' & Hadd & HRep' & Hr' & Ho' & Hc' & Hd' & _); try done.
  { simpl. apply lookup_insert_eq. }
  simpl in Hop. unfold bind in Hop. fold w1 in Hop.
  rewrite <- Ho, Hadd in Hop. inversion Hop; subst w''; clear Hop.
  split; [|exact Hd'].
  intros r'' Hr''. assert (r'' = r') as -> by congruence.
  split; [congruence|]. exists (a :: live), free.
  split; [done|]. rewrite Hd'. simpl.
  split.
  { intros x. rewrite elem_of_cons, Hlive, elem_of_union, elem_of_singleton.
    destruct (decide (x = a)) as [->|]; tauto. }
  split; [done|]. split; [done|].
  intros x Hx. apply elem_of_union. right. by apply HKA.
Qed.

Lemma step_decrement_Inv A K w live free r self w' :
  Rep w this live free → registries w !! this = Some r →
  owning_thread r = owner →
  (∀ a, a ∈ live ↔ a ∈ A ∧ a ∉ destroyed w) →
  (∀ a, a ∈ K ↔ a ∈ free ∨ a ∈ destroyed w) →
  NoDup (destroyed w) → K ⊆ A →
  decrement_ref_count self this w = Ok tt w' →
  Inv owner this A K w' ∧ destroyed w' = destroyed w.
Proof.
  intros HRep Hr Ho Hlive Hmarked Hnd HKA Hdec.
  rewrite (decrement_ref_count_spec self this w live free r HRep Hr) in Hdec.
  destruct (decide (ref_count r = 1)) as [H1|Hne].
  - destruct free; [|discriminate]. inversion Hdec; subst w'.
    split; [|done]. apply Inv_deleted. simpl. apply lookup_delete_eq.
  - inversion Hdec; subst w'. split; [|done].
    intros r' Hr'. simpl in Hr'. rewrite lookup_insert_eq in Hr'.
    inversion Hr'; subst r'. split; [done|].
    exists live, free. split; [by apply Rep_set_ref_count|]. by simpl.
Qed.

Lemma step_mark A K w r n self a w' :
  Inv owner this A K w → registries w !! this = Some r → a ∈ A → a ∉ K →
  run_op owner this (OpMark n self a) w = Ok tt w' →
  Inv owner this A ({[a]} ∪ K) w' ∧ destroyed w' = destroyed w.
Proof.
  intros HInv Hr Ha HaK Hop.
  destruct (HInv r Hr) as (Ho & live & free & HRep & Hlive & Hmarked & Hnd & HKA).
  assert (a ∉ free) as Haf by (intros Hin; apply HaK, Hmarked; by left).
  assert (a ∉ destroyed w) as Had by (intros Hin; apply HaK, Hmarked; by right).
  assert (a ∈ live) as Hal by (by apply Hlive).
  destruct (dll_lookup _ _ _ _ _ (rep_live _ _ _ _ HRep) Hal) as (p & Hp & Hreg).
  simpl in Hop. erewrite mark_for_deletion_unfold in Hop by done.
  eapply step_decrement_Inv
    with (live := live) (free := a :: free) (r := set_free_head (Some a) r)
    in Hop; simpl; try done.
  - by apply Rep_link.
  - apply lookup_insert_eq.
  - intros x. rewrite elem_of_union, elem_of_singleton, elem_of_cons, Hmarked.
    tauto.
  - set_solver.
Qed.

Lemma step_collect A K w w' :
  Inv owner this A K w →
  run_op owner this OpCollect w = Ok tt w' →
  Inv owner this A K w' ∧ destroyed w' = destroyed w.
Proof.
  intros HInv Hop. simpl in Hop.
  apply garbage_collect_Ok_inv in Hop as [-> _]. by split.
Qed.

Lemma step_increment A K w r w' :
  Inv owner this A K w → registries w !! this = Some r →
  run_op owner this OpIncrement w = Ok tt w' →
  Inv owner this A K w' ∧ destroyed w' = destroyed w.
Proof.
  intros HInv Hr Hop.
  destruct (HInv r Hr) as (Ho & live & free & HRep & Hlive & Hmarked & Hnd & HKA).
  simpl in Hop. unfold increment_ref_count in Hop.
  erewrite modify_registry_Ok in Hop by done. inversion Hop; subst w'.
  split; [|done].
  intros r' Hr'. simpl in Hr'. rewrite lookup_insert_eq in Hr'.
  inversion Hr'; subst r'. split; [done|].
  exists live, free. split; [by apply Rep_set_ref_count|]. by simpl.
Qed.

Lemma step_decrement A K w r self w' :
  Inv owner this A K w → registries w !! this = Some r →
  run_op owner this (OpDecrement self) w = Ok tt w' →
  Inv owner this A K w' ∧ destroyed w' = destroyed w.
Proof.
  intros HInv Hr Hop.
  destruct (HInv r Hr) as (Ho & live & free & HRep & Hlive & Hmarked & Hnd & HKA).
  by eapply step_decrement_Inv.
Qed.

(** A call on a registry that is gone does not return. *)
Lemma run_op_alive o w u w' :
  run_op owner this o w = Ok u w' → is_Some (registries w !! this).
Proof.
  destruct o as [a t loc|n self a| | |self]; simpl; intros H.
  - apply bind_Ok_inv in H as ([] & w1 & H1 & H). inversion H1; subst w1.
    unfold add in H. apply bind_Ok_inv in H as (r & w2 & H2 & _).
    apply load_registry_inv in H2 as [_ H2]. simpl in H2. eauto.
  - unfold mark_for_deletion in H.
    apply bind_Ok_inv in H as (p & w1 & H1 & H).
    apply load_promise_inv in H1 as [-> _].
    apply bind_Ok_inv in H as ([] & w1 & H1 & H).
    apply ADB_PROD_ASSERT_inv in H1 as [_ ->].
    apply bind_Ok_inv in H as (r & w1 & H1 & _).
    apply load_registry_inv in H1 as [_ H1]. eauto.
  - unfold garbage_collect in H. apply bind_Ok_inv in H as (r & w1 & H1 & _).
    apply load_registry_inv in H1 as [_ H1]. eauto.
  - apply modify_registry_inv in H as (r & H1 & _). eauto.
  - unfold decrement_ref_count in H.
    apply bind_Ok_inv in H as (r & w1 & H1 & _).
    apply load_registry_inv in H1 as [_ H1]. eauto.
Qed.


Lemma Inv_make w0 w1 :
  destroyed w0 = [] → make owner w0 = Ok this w1 → Inv owner this ∅ ∅ w1.
Proof.
  intros Hd0 Hmake. apply make_spec in Hmake as (HRep & Hr & _ & Hd).
  intros r Hr'. assert (r = mkThreadRegistry owner None None 0) as -> by congruence.
  split; [done|]. exists [], []. split; [done|]. rewrite Hd, Hd0.
  split; [set_solver|]. split; [set_solver|]. split; [apply NoDup_nil_2|done].
Qed.
End Scripts.

(** ** The lists after adds and marks *)


(** ** The last reference *)

(** C6: on a well-formed registry the decrement that takes the counter
    from one to zero runs a garbage collection.  If a record is on the free
    list, the collection destroys the first one and then reads its
    [next_to_free]: the decrement does not return, it is [Undefined], and
    the registry is not deleted.  If the free list is empty the collection
    returns and the registry is deleted.  A decrement that leaves the
    counter positive only stores the new counter: nothing is destroyed and
    the registry stays. *)
Theorem decrement_ref_count_last_undefined (self : std_thread_id) (this : addr)
    (w : World) (live free : list addr) (r : ThreadRegistry) :
  Rep w this live free →
  registries w !! this = Some r →
  (ref_count r = 1 → free ≠ [] →
   decrement_ref_count self this w = Undefined)
  ∧ (ref_count r = 1 → free = [] →
     decrement_ref_count self this w
     = Ok tt (with_registries (delete this (registries w)) w))
  ∧ (0 < wrap_size_t (ref_count r - 1) →
     ∃ w' r',
       decrement_ref_count self this w = Ok tt w'
       ∧ registries w' !! this = Some r'
       ∧ ref_count r' = wrap_size_t (ref_count r - 1)
       ∧ owning_thread r' = owning_thread r
       ∧ promise_head r' = promise_head r
       ∧ free_head r' = free_head r
       ∧ promises w' = promises w
       ∧ destroyed w' = destroyed w).
Proof.
  intros HRep Hr.
  pose proof (decrement_ref_count_spec self this w live free r HRep Hr) as Hdec.
  split; [|split].
  - intros H1 Hne. destruct (decide (ref_count r = 1)); [|done].
    by destruct free.
  - intros H1 ->. by destruct (decide (ref_count r = 1)).
  - intros Hpos. destruct (decide (ref_count r = 1)) as [H1|Hne].
    + rewrite H1 in Hpos. vm_compute in Hpos. discriminate.
    + rewrite Hdec. eexists _, _. split; [reflexivity|]. simpl.
      rewrite lookup_insert_eq. by repeat split.
Qed.

(** ** [mark_for_deletion] and the state of the record *)

(** C1, as amended: for a record whose [registry] is the registry called,
    [mark_for_deletion] links the record in front of the free list
    (its [next_to_free] gets the old head, the head gets the record) and
    then decrements the counter, in the store so reached; it does not
    write the state of the record: a snapshot taken once the record is
    linked, and one taken after a decrement that is not the last, shows the
    state the record had before the call. *)
Theorem mark_for_deletion_links_then_decrements (n : nat) (self : std_thread_id)
    (this a : addr) (p : Promise) (r : ThreadRegistry) (w : World) :
  promises w !! a = Some p →
  registry p = Some this →
  registries w !! this = Some r →
  mark_for_deletion n self this a w
  = decrement_ref_count self this (linked this a p r w)
  ∧ registries (linked this a p r w) !! this = Some (set_free_head (Some a) r)
  ∧ promises (linked this a p r w) !! a
    = Some (set_next_to_free (free_head r) p)
  ∧ (∃ s, Promise_snapshot a (linked this a p r w) = Ok s (linked this a p r w)
          ∧ snap_state s = state p)
  ∧ (ref_count r ≠ 1 →
     ∃ w' s r',
       mark_for_deletion n self this a w = Ok tt w'
       ∧ registries w' !! this = Some r'
       ∧ free_head r' = Some a
       ∧ ref_count r' = wrap_size_t (ref_count r - 1)
       ∧ Promise_snapshot a w' = Ok s w'
       ∧ snap_state s = state p).
Proof.
  intros Hp Hreg Hr.
  assert (promises (linked this a p r w) !! a
          = Some (set_next_to_free (free_head r) p)) as Hpa.
  { simpl. apply lookup_insert_eq. }
  assert (registries (linked this a p r w) !! this
          = Some (set_free_head (Some a) r)) as Hra.
  { simpl. apply lookup_insert_eq. }
  split; [by apply mark_for_deletion_unfold|].
  split; [exact Hra|]. split; [exact Hpa|]. split.
  - eexists. unfold Promise_snapshot.
    erewrite bind_Ok by (apply load_promise_Ok; exact Hpa).
    split; reflexivity.
  - intros Hne. erewrite mark_for_deletion_unfold by done. fold (linked this a p r w).
    erewrite decrement_ref_count_not_last; [|exact Hra|done].
    eexists _, _, _. split; [reflexivity|]. simpl.
    rewrite lookup_insert_eq. split; [reflexivity|]. simpl.
    split; [done|]. split; [done|]. unfold Promise_snapshot.
    erewrite bind_Ok by (apply load_promise_Ok; simpl; apply lookup_insert_eq).
    split; reflexivity.
Qed.

(** C1, counterexample: a running record is marked for deletion; the call
    returns and a snapshot taken afterwards shows [Running], not
    [Deleted]. *)
Lemma mark_for_deletion_state_still_running :
  ∃ w' s,
    mark_for_deletion 0 9%positive 1%positive 5%positive (one_record Running 2)
    = Ok tt w'
    ∧ Promise_snapshot 5%positive w' = Ok s w'
    ∧ snap_state s = Running
    ∧ snap_state s ≠ Deleted.
Proof.
  eexists _, _. split; [vm_compute; reflexivity|].
  split; [vm_compute; reflexivity|]. split; [reflexivity|discriminate].
Qed.

(** C2, counterexample: the record is [Resolved]; [update_state(Running)]
    does not advance the state, yet it returns and the record is
    [Running]. *)
Lemma update_state_regression_stored :
  spec_state_advances Resolved Running = false
  ∧ ∃ w',
      update_state (mkAddToAsyncRegistry (Some 5%positive)) Running
        (one_record Resolved 2)
      = Ok tt w'
      ∧ state <$> promises w' !! 5%positive = Some Running.
Proof.
  split; [reflexivity|]. eexists. split; vm_compute; reflexivity.
Qed.

(** ** The theorems at concrete stores *)

Lemma one_marked_record_Rep rc :
  Rep (one_marked_record rc) 1%positive [5%positive] [5%positive].
Proof.
  constructor; simpl.
  - eexists. split; [reflexivity|]. by split.
  - eexists. split; [reflexivity|]. by repeat split.
  - eexists. split; [reflexivity|]. by split.
  - apply NoDup_singleton.
  - apply NoDup_singleton.
  - done.
Qed.

Lemma mark_for_deletion_links_then_decrements_witness :
  mark_for_deletion 1 9%positive 1%positive 5%positive (one_record Running 2)
  = decrement_ref_count 9%positive 1%positive
      (linked 1%positive 5%positive
         (example_promise Running (Some 1%positive) None None None)
         (mkThreadRegistry 7%positive None (Some 5%positive) 2)
         (one_record Running 2)).
Proof.
  apply (proj1 (mark_for_deletion_links_then_decrements 1 9%positive 1%positive
                  5%positive
                  (example_promise Running (Some 1%positive) None None None)
                  (mkThreadRegistry 7%positive None (Some 5%positive) 2)
                  (one_record Running 2) eq_refl eq_refl eq_refl)).
Defined.

Lemma update_state_stores_unchecked_witness :
  update_state (mkAddToAsyncRegistry (Some 5%positive)) Running
    (one_record Resolved 2)
  = Ok tt (with_promises
             (<[5%positive :=
                  set_state Running
                    (example_promise Resolved (Some 1%positive) None None None)]>
                (promises (one_record Resolved 2)))
             (one_record Resolved 2)).
Proof.
  apply (proj1 (update_state_stores_unchecked
                  (mkAddToAsyncRegistry (Some 5%positive)) 5%positive
                  (example_promise Resolved (Some 1%positive) None None None)
                  Running (one_record Resolved 2) eq_refl eq_refl)).
Defined.

Lemma single_thread_lifecycle_collect_undefined_witness :
  ∃ w2 w3,
    (do! add 7%positive 1%positive 1%positive in
     do! add 7%positive 1%positive 2%positive in
     add 7%positive 1%positive 3%positive)
      (mkWorld (promises three_records)
               {[1%positive := mkThreadRegistry 7%positive None None 0]} [])
    = Ok tt w2
    ∧ visited 1%positive w2 = Ok [3%positive; 2%positive; 1%positive] w2
    ∧ mark_for_deletion 1 9%positive 1%positive 2%positive w2 = Ok tt w3
    ∧ visited 1%positive w3 = Ok [3%positive; 2%positive; 1%positive] w3
    ∧ garbage_collect 7%positive 1%positive w3 = Undefined.
Proof.
  apply (single_thread_lifecycle_collect_undefined 7%positive three_records
           (mkWorld (promises three_records)
                    {[1%positive := mkThreadRegistry 7%positive None None 0]} [])
           1%positive 1%positive 2%positive 3%positive
           (example_promise Running None None None None)
           (example_promise Running None None None None)
           (example_promise Running None None None None)
           1 9%positive);
    first [ vm_compute; reflexivity | discriminate ].
Defined.


Lemma add_wrong_thread_fatal_witness :
  add 9%positive 1%positive 5%positive (one_record Running 2)
  = Fatal (one_record Running 2).
Proof.
  apply (add_wrong_thread_fatal 9%positive 1%positive 5%positive
           (mkThreadRegistry 7%positive None (Some 5%positive) 2)
           (one_record Running 2));
    [reflexivity | discriminate].
Defined.

Lemma decrement_ref_count_last_undefined_witness :
  decrement_ref_count 9%positive 1%positive (one_marked_record 1) = Undefined
  ∧ (∃ w' r',
       decrement_ref_count 9%positive 1%positive (one_marked_record 3) = Ok tt w'
       ∧ registries w' !! 1%positive = Some r'
       ∧ ref_count r' = wrap_size_t (3 - 1)
       ∧ owning_thread r' = 7%positive
       ∧ promise_head r' = Some 5%positive
       ∧ free_head r' = Some 5%positive
       ∧ promises w' = promises (one_marked_record 3)
       ∧ destroyed w' = destroyed (one_marked_record 3)).
Proof.
  split.
  - apply (proj1 (decrement_ref_count_last_undefined 9%positive 1%positive
                    (one_marked_record 1) [5%positive] [5%positive]
                    (mkThreadRegistry 7%positive (Some 5%positive)
                       (Some 5%positive) 1)
                    (one_marked_record_Rep 1) eq_refl) eq_refl).
    discriminate.
  - apply (proj2 (proj2 (decrement_ref_count_last_undefined 9%positive
                    1%positive (one_marked_record 3) [5%positive] [5%positive]
                    (mkThreadRegistry 7%positive (Some 5%positive)
                       (Some 5%positive) 3)
                    (one_marked_record_Rep 3) eq_refl)) eq_refl).
Defined.


Lemma update_source_location_only_line_witness :
  ∃ w' p',
    update_source_location (mkAddToAsyncRegistry (Some 5%positive))
      example_location (one_record Suspended 2)
    = Ok tt w'
    ∧ promises w' !! 5%positive = Some p'
    ∧ line (source_location p') = 42.
Proof.
  destruct (update_source_location_only_line
              (mkAddToAsyncRegistry (Some 5%positive)) 5%positive
              (example_promise Suspended (Some 1%positive) None None None)
              example_location (one_record Suspended 2) eq_refl eq_refl)
    as (w' & p' & H1 & H2 & H3 & _).
  exists w', p'. split; [exact H1|]. split; [exact H2|exact H3].
Defined.

(** ** A record marked twice *)


(** * Further properties of the registry calls *)

Lemma two_records_Rep rc :
  Rep (two_records rc) 1%positive [6%positive; 5%positive] [].
Proof.
  constructor; simpl.
  - eexists. split; [reflexivity|]. by split.
  - eexists. split; [reflexivity|]. repeat split.
    eexists. split; [reflexivity|]. by repeat split.
  - done.
  - apply NoDup_cons. split; [set_solver|apply NoDup_singleton].
  - apply NoDup_nil_2.
  - intros a Ha. by apply elem_of_nil in Ha.
Qed.

Lemma one_record_Rep s rc :
  Rep (one_record s rc) 1%positive [5%positive] [].
Proof.
  constructor; simpl.
  - eexists. split; [reflexivity|]. by split.
  - eexists. split; [reflexivity|]. by repeat split.
  - done.
  - apply NoDup_singleton.
  - apply NoDup_nil_2.
  - intros a Ha. by apply elem_of_nil in Ha.
Qed.

(** ** Failed assertions *)

(** X1: [mark_for_deletion] of a record whose [registry] is not the registry
    called aborts on the assertion, in the store it was called in: the
    record is not linked and no counter changes. *)
Theorem mark_for_deletion_foreign_fatal (n : nat) (self : std_thread_id)
    (this a : addr) (p : Promise) (w : World) :
  promises w !! a = Some p →
  registry p ≠ Some this →
  mark_for_deletion n self this a w = Fatal w.
Proof.
  intros Hp Hne. unfold mark_for_deletion.
  erewrite bind_Ok by (by apply load_promise_Ok).
  unfold bind, ADB_PROD_ASSERT. by rewrite bool_decide_eq_false_2.
Qed.

Lemma mark_for_deletion_foreign_fatal_witness :
  mark_for_deletion 0 7%positive 2%positive 5%positive (one_record Running 2)
  = Fatal (one_record Running 2).
Proof.
  apply (mark_for_deletion_foreign_fatal 0 7%positive 2%positive 5%positive
           (example_promise Running (Some 1%positive) None None None)
           (one_record Running 2));
    [reflexivity | discriminate].
Defined.

(** X2: [garbage_collect] called off the owning thread while the counter is
    not zero aborts on the assertion, in the store it was called in: the
    free list is not taken and nothing is destroyed. *)
Theorem garbage_collect_not_owner_fatal (self : std_thread_id) (this : addr)
    (r : ThreadRegistry) (w : World) :
  registries w !! this = Some r →
  ref_count r ≠ 0 →
  self ≠ owning_thread r →
  garbage_collect self this w = Fatal w.
Proof.
  intros Hr Hc Ho. unfold garbage_collect.
  erewrite bind_Ok by (by apply load_registry_Ok).
  unfold bind, ADB_PROD_ASSERT.
  by rewrite !bool_decide_eq_false_2.
Qed.

Lemma garbage_collect_not_owner_fatal_witness :
  garbage_collect 9%positive 1%positive (one_marked_record 2)
  = Fatal (one_marked_record 2).
Proof.
  apply (garbage_collect_not_owner_fatal 9%positive 1%positive
           (mkThreadRegistry 7%positive (Some 5%positive) (Some 5%positive) 2)
           (one_marked_record 2));
    [reflexivity | discriminate | discriminate].
Defined.

(** ** Spurious failures of the compare-exchange *)

(** X3: the outcome of [mark_for_deletion] does not depend on how often the
    weak compare-exchange fails spuriously, in any store and for any
    arguments. *)
Theorem mark_for_deletion_any_spurious (n m : nat) (self : std_thread_id)
    (this a : addr) (w : World) :
  mark_for_deletion n self this a w = mark_for_deletion m self this a w.
Proof.
  unfold mark_for_deletion, bind, load_promise.
  destruct (promises w !! a) as [p|] eqn:Hp; [|done].
  unfold ADB_PROD_ASSERT. destruct (bool_decide (registry p = Some this)); [|done].
  unfold load_registry. destruct (registries w !! this) as [r|] eqn:Hr; [|done].
  by rewrite (mark_for_deletion_loop_Ok n this a w p r),
             (mark_for_deletion_loop_Ok m this a w p r).
Qed.

(** ** Increment and decrement *)

Lemma with_registries_twice g g' w :
  with_registries g (with_registries g' w) = with_registries g w.
Proof. reflexivity. Qed.

Lemma with_registries_same w : with_registries (registries w) w = w.
Proof. by destruct w. Qed.

Lemma set_ref_count_same r : set_ref_count (ref_count r) r = r.
Proof. by destruct r. Qed.

Lemma wrap_size_t_small z : 0 ≤ z < size_t_modulus → wrap_size_t z = z.
Proof. intros Hz. unfold wrap_size_t. by apply Z.mod_small. Qed.

Lemma wrap_size_t_succ_pred z : wrap_size_t (wrap_size_t (z + 1) - 1) = wrap_size_t z.
Proof.
  unfold wrap_size_t. rewrite Zminus_mod_idemp_l. f_equal. lia.
Qed.

Lemma wrap_size_t_pred_succ z : wrap_size_t (wrap_size_t (z - 1) + 1) = wrap_size_t z.
Proof.
  unfold wrap_size_t. rewrite Zplus_mod_idemp_l. f_equal. lia.
Qed.

Lemma wrap_size_t_succ_not_one z :
  0 < z < size_t_modulus → wrap_size_t (z + 1) ≠ 1.
Proof.
  intros Hz. unfold wrap_size_t, size_t_modulus in *.
  destruct (decide (z + 1 = 2 ^ 64)) as [->|Hne].
  - by rewrite Z.mod_same.
  - rewrite Z.mod_small; lia.
Qed.

(** X4: on a registry whose counter is above one (and below 2^64),
    incrementing and then decrementing the counter, or decrementing and
    then incrementing it, gives back the store: no collection runs and the
    registry stays. *)
Theorem increment_decrement_round_trip (self : std_thread_id) (this : addr)
    (r : ThreadRegistry) (w : World) :
  registries w !! this = Some r →
  1 < ref_count r < size_t_modulus →
  (do! increment_ref_count this in decrement_ref_count self this) w = Ok tt w
  ∧ (do! decrement_ref_count self this in increment_ref_count this) w = Ok tt w.
Proof.
  intros Hr Hc. split.
  - unfold increment_ref_count.
    erewrite bind_Ok by (by apply modify_registry_Ok).
    erewrite decrement_ref_count_not_last;
      [|simpl; apply lookup_insert_eq|simpl; apply wrap_size_t_succ_not_one; lia].
    simpl. rewrite insert_insert_eq, wrap_size_t_succ_pred.
    rewrite wrap_size_t_small by lia. unfold set_ref_count at 1. simpl.
    fold (set_ref_count (ref_count r) r). rewrite set_ref_count_same.
    rewrite insert_id by done.
    by rewrite ?with_registries_twice, with_registries_same.
  - erewrite bind_Ok by (apply decrement_ref_count_not_last; [done|lia]).
    unfold increment_ref_count.
    erewrite modify_registry_Ok by (simpl; apply lookup_insert_eq).
    simpl. rewrite insert_insert_eq, wrap_size_t_pred_succ.
    rewrite wrap_size_t_small by lia. unfold set_ref_count at 1. simpl.
    fold (set_ref_count (ref_count r) r). rewrite set_ref_count_same.
    rewrite insert_id by done.
    by rewrite ?with_registries_twice, with_registries_same.
Qed.

Lemma increment_decrement_round_trip_witness :
  (do! increment_ref_count 1%positive in decrement_ref_count 9%positive 1%positive)
    (one_record Running 2)
  = Ok tt (one_record Running 2)
  ∧ (do! decrement_ref_count 9%positive 1%positive in increment_ref_count 1%positive)
      (one_record Running 2)
    = Ok tt (one_record Running 2).
Proof.
  apply (increment_decrement_round_trip 9%positive 1%positive
           (mkThreadRegistry 7%positive None (Some 5%positive) 2)
           (one_record Running 2));
    [reflexivity | vm_compute; split; reflexivity].
Defined.

(** ** Traversal *)

Lemma for_promise_loop_fold {A} h this (function : addr → Promise → A → A) :
  ∀ l prev fuel acc w,
    promises w = h → dll h this prev l → (length l ≤ fuel)%nat →
    for_promise_loop fuel function (head l) acc w
    = Ok (visit_fold h function l acc) w.
Proof.
  induction l as [|a l IH]; intros prev fuel acc w Hw Hl Hfuel; simpl.
  - by destruct fuel.
  - destruct fuel as [|fuel]; [simpl in Hfuel; lia|].
    destruct Hl as (p & Hp & ? & Hn & ? & Hl). simpl.
    erewrite bind_Ok by (apply load_promise_Ok; by rewrite Hw).
    rewrite Hn, Hp. eapply IH; [done|done|simpl in Hfuel; lia].
Qed.

Lemma visited_of_dll w this r live :
  registries w !! this = Some r → promise_head r = head live →
  dll (promises w) this None live → NoDup live →
  visited this w = Ok live w.
Proof.
  intros Hr Hh Hl Hnd. unfold visited, for_promise.
  erewrite bind_Ok by (by apply load_registry_Ok).
  unfold bind at 1, get_world. rewrite Hh.
  erewrite for_promise_loop_visits; [done|done|done|].
  apply length_le_size; [done|]. intros a Ha.
  destruct (dll_lookup _ _ _ _ _ Hl Ha) as (p & -> & _). eauto.
Qed.

(** X5: on a well-formed registry [for_promise] returns its callback folded
    over the live list, from the head on, each record once with the fields
    the store holds for it, and leaves the store as it was (so a second
    traversal gives the same). *)
Theorem for_promise_folds_live_list {A} (w : World) (this : addr)
    (live free : list addr) (function : addr → Promise → A → A) (acc : A) :
  Rep w this live free →
  for_promise this function acc w
  = Ok (visit_fold (promises w) function live acc) w.
Proof.
  intros [(r & Hr & Hh & _) Hl _ Hnd _ _]. unfold for_promise.
  erewrite bind_Ok by (by apply load_registry_Ok).
  unfold bind at 1, get_world. rewrite Hh.
  eapply for_promise_loop_fold; [done|done|].
  apply length_le_size; [done|]. intros a Ha.
  destruct (dll_lookup _ _ _ _ _ Hl Ha) as (p & -> & _). eauto.
Qed.

Lemma for_promise_folds_live_list_witness :
  for_promise 1%positive (λ a p acc, (a, next p) :: acc) [] (two_records 2)
  = Ok [(5%positive, None); (6%positive, Some 5%positive)] (two_records 2).
Proof.
  apply (for_promise_folds_live_list (two_records 2) 1%positive
           [6%positive; 5%positive] [] (λ a p acc, (a, next p) :: acc) []
           (two_records_Rep 2)).
Defined.

(** ** [add], [mark_for_deletion], [garbage_collect] on a well-formed registry *)

(** X6: on the owning thread [add] of a constructed record (its [previous]
    null) that is not in the list puts it in front of the live list: a
    traversal visits it first and then the old list; the free list and the
    log of destroyed records are as before, the counter is one higher, and
    no record outside the list is written but the added one. *)
Theorem add_pushes_front (w : World) (this : addr) (live free : list addr)
    (r : ThreadRegistry) (a : addr) (p : Promise) :
  Rep w this live free →
  registries w !! this = Some r →
  promises w !! a = Some p → previous p = None → a ∉ live →
  ∃ w' r',
    add (owning_thread r) this a w = Ok tt w'
    ∧ visited this w' = Ok (a :: live) w'
    ∧ Rep w' this (a :: live) free
    ∧ registries w' !! this = Some r'
    ∧ ref_count r' = wrap_size_t (ref_count r + 1)
    ∧ destroyed w' = destroyed w
    ∧ (∀ x, x ≠ a → x ∉ live → promises w' !! x = promises w !! x).
Proof.
  intros HRep Hr Hp Hprev Ha.
  destruct (add_spec w this live free r a p HRep Hr Hp Hprev Ha)
    as (w' & r' & Hadd & HRep' & Hr' & _ & Hc & Hd & Hfr).
  exists w', r'. split; [done|]. split; [by eapply visited_spec|].
  split; [done|]. split; [done|]. split; [done|]. by split.
Qed.

Lemma add_pushes_front_witness :
  ∃ w',
    add 7%positive 1%positive 8%positive (two_records 2) = Ok tt w'
    ∧ visited 1%positive w' = Ok [8%positive; 6%positive; 5%positive] w'.
Proof.
  destruct (add_pushes_front (two_records 2) 1%positive
              [6%positive; 5%positive] []
              (mkThreadRegistry 7%positive None (Some 6%positive) 2) 8%positive
              (example_promise Running None None None None)
              (two_records_Rep 2) eq_refl eq_refl eq_refl)
    as (w' & r' & H1 & H2 & _).
  { intros [H|[H|H]%elem_of_cons]%elem_of_cons;
      [discriminate|discriminate|by apply elem_of_nil in H]. }
  exists w'. by split.
Defined.

(** X7: [mark_for_deletion] of a live record that is not yet on the free
    list, when the counter is not one, puts the record in front of the
    free list and leaves the live list alone: a traversal still visits the
    same records in the same order; nothing is destroyed and the counter
    is one lower. *)
Theorem mark_for_deletion_keeps_traversal (n : nat) (self : std_thread_id)
    (w : World) (this : addr) (live free : list addr) (r : ThreadRegistry)
    (a : addr) :
  Rep w this live free →
  registries w !! this = Some r →
  a ∈ live → a ∉ free → ref_count r ≠ 1 →
  ∃ w' r',
    mark_for_deletion n self this a w = Ok tt w'
    ∧ visited this w' = Ok live w'
    ∧ Rep w' this live (a :: free)
    ∧ registries w' !! this = Some r'
    ∧ free_head r' = Some a
    ∧ ref_count r' = wrap_size_t (ref_count r - 1)
    ∧ destroyed w' = destroyed w.
Proof.
  intros HRep Hr Ha Hna Hc.
  destruct (mark_for_deletion_spec n self this w live free a r HRep Hr Ha Hna Hc)
    as (w' & r' & Hm & HRep' & Hr' & _ & Hc' & Hd).
  exists w', r'. split; [done|]. split; [by eapply visited_spec|].
  split; [done|]. split; [done|]. split; [|done].
  destruct (rep_registry _ _ _ _ HRep') as (r'' & Hr'' & _ & Hfh).
  assert (r'' = r') as -> by congruence. done.
Qed.

Lemma mark_for_deletion_keeps_traversal_witness :
  ∃ w',
    mark_for_deletion 2 9%positive 1%positive 5%positive (two_records 2) = Ok tt w'
    ∧ visited 1%positive w' = Ok [6%positive; 5%positive] w'.
Proof.
  destruct (mark_for_deletion_keeps_traversal 2 9%positive (two_records 2)
              1%positive [6%positive; 5%positive] []
              (mkThreadRegistry 7%positive None (Some 6%positive) 2) 5%positive
              (two_records_Rep 2) eq_refl)
    as (w' & r' & H1 & H2 & _).
  { apply elem_of_cons. right. apply elem_of_cons. by left. }
  { intros H. by apply elem_of_nil in H. }
  { discriminate. }
  exists w'. by split.
Defined.



(** ** [remove] *)

Lemma dll_cell_links h this :
  ∀ l1 prev a l2,
    dll h this prev (l1 ++ a :: l2) →
    ∃ p, h !! a = Some p ∧ next p = head l2
         ∧ ∀ x, previous p = Some x → prev = Some x ∨ x ∈ l1.
Proof.
  induction l1 as [|y l1 IH]; intros prev a l2 Hl; simpl in Hl.
  - destruct Hl as (p & Hp & Hpp & Hpn & _). exists p.
    split; [done|]. split; [done|]. intros x Hx. left. congruence.
  - destruct Hl as (py & _ & _ & _ & _ & Hl).
    destruct (IH _ _ _ Hl) as (p & Hp & Hpn & Hpp). exists p.
    split; [done|]. split; [done|]. intros x Hx. right.
    destruct (Hpp x Hx) as [Heq|Hin]; [|set_solver].
    inversion Heq. set_solver.
Qed.

(** [remove] writes only the two neighbours of the record. *)
Lemma remove_frame this a p w u w' :
  remove this a w = Ok u w' → promises w !! a = Some p →
  ∀ x, previous p ≠ Some x → next p ≠ Some x →
       promises w' !! x = promises w !! x.
Proof.
  unfold remove. intros H Hp x Hxp Hxn.
  apply bind_Ok_inv in H as (p' & w1 & Hp' & H).
  apply load_promise_inv in Hp' as [-> Hp'].
  assert (p' = p) as -> by congruence.
  apply bind_Ok_inv in H as ([] & w2 & H1 & H2).
  assert (promises w2 !! x = promises w !! x) as H12.
  { destruct (previous p) as [pv|].
    - apply modify_promise_inv in H1 as (? & _ & ->). simpl.
      apply lookup_insert_ne. congruence.
    - by apply modify_registry_inv in H1 as (? & _ & ->). }
  rewrite <- H12. destruct (next p) as [nx|].
  - apply modify_promise_inv in H2 as (? & _ & ->). simpl.
    apply lookup_insert_ne. congruence.
  - by inversion H2.
Qed.

(** X10: [remove] of a record of the live list unlinks exactly that record:
    a traversal afterwards visits the records before it and the records
    after it, in their old order.  The record itself is not written (it
    keeps its [next] and [previous]), nothing is destroyed, and owner, free
    list head and counter of the registry are as before. *)
Theorem remove_unlinks_record (w : World) (this : addr) (l1 : list addr)
    (a : addr) (l2 free : list addr) :
  Rep w this (l1 ++ a :: l2) free →
  ∃ w',
    remove this a w = Ok tt w'
    ∧ visited this w' = Ok (l1 ++ l2) w'
    ∧ promises w' !! a = promises w !! a
    ∧ destroyed w' = destroyed w
    ∧ reg_kept this w w'.
Proof.
  intros [(r & Hr & Hh & Hfh) Hl Hf Hnd Hndf Hsub].
  destruct (remove_spec this w r l1 a l2 Hr Hh Hl Hnd)
    as (w' & r' & Hrm & Hr' & Hh' & Hl' & _ & Hd).
  assert (NoDup (l1 ++ l2)) as Hnd'.
  { apply NoDup_app in Hnd as (Hnd1 & Hdisj & Hnd2).
    apply NoDup_cons in Hnd2 as [_ Hnd2]. apply NoDup_app.
    split; [done|]. split; [|done]. intros x Hx1 Hx2. apply (Hdisj x Hx1). set_solver. }
  exists w'. split; [done|]. split; [by eapply visited_of_dll|].
  split; [|split; [done|by eapply remove_reg_kept]].
  destruct (dll_cell_links _ _ _ _ _ _ Hl) as (p & Hp & Hpn & Hpp).
  apply NoDup_app in Hnd as (_ & Hdisj & Hnd2).
  apply NoDup_cons in Hnd2 as [Ha2 _].
  eapply remove_frame; [exact Hrm|exact Hp| |].
  - intros Hx. destruct (Hpp a Hx) as [?|Hin]; [done|].
    apply (Hdisj a Hin). set_solver.
  - rewrite Hpn. intros Hx. apply Ha2. destruct l2; [done|].
    inversion Hx. set_solver.
Qed.

Lemma remove_unlinks_record_witness :
  ∃ w',
    remove 1%positive 5%positive (two_records 2) = Ok tt w'
    ∧ visited 1%positive w' = Ok [6%positive] w'
    ∧ promises w' !! 5%positive
      = Some (example_promise Running (Some 1%positive) None (Some 6%positive) None).
Proof.
  destruct (remove_unlinks_record (two_records 2) 1%positive [6%positive]
              5%positive [] [] (two_records_Rep 2))
    as (w' & H1 & H2 & H3 & _).
  exists w'. split; [exact H1|]. split; [exact H2|exact H3].
Defined.

(** ** Several marks *)

Lemma run_script_app owner this s1 s2 w :
  run_script owner this (s1 ++ s2) w
  = (do! run_script owner this s1 in run_script owner this s2) w.
Proof.
  revert w. induction s1 as [|o s1 IH]; intros w; simpl; [done|].
  unfold bind at 1 2 3. rewrite ?IH. unfold bind. destruct (run_op owner this o w) as [[] w1| | |]; try done.
Qed.

Lemma mark_each_spec n self owner this live :
  ∀ ms w free r,
    Rep w this live free → registries w !! this = Some r →
    NoDup ms → (∀ a, a ∈ ms → a ∈ live ∧ a ∉ free) →
    Z.of_nat (length ms) < ref_count r < size_t_modulus →
    ∃ w' r',
      run_script owner this (mark_each n self ms) w = Ok tt w'
      ∧ Rep w' this live (rev ms ++ free)
      ∧ registries w' !! this = Some r'
      ∧ ref_count r' = ref_count r - Z.of_nat (length ms)
      ∧ owning_thread r' = owning_thread r
      ∧ destroyed w' = destroyed w.
Proof.
  induction ms as [|a ms IH]; intros w free r HRep Hr Hnd Hin Hc.
  - exists w, r. simpl. split; [done|]. split; [done|]. split; [done|].
    split; [lia|]. by split.
  - apply NoDup_cons in Hnd as [Ha Hnd].
    destruct (Hin a) as [Hal Haf]; [set_solver|].
    rewrite length_cons, Nat2Z.inj_succ in Hc.
    destruct (mark_for_deletion_spec n self this w live free a r HRep Hr Hal Haf)
      as (w1 & r1 & Hm & HRep1 & Hr1 & Ho1 & Hc1 & Hd1); [lia|].
    rewrite wrap_size_t_small in Hc1 by lia.
    destruct (IH w1 (a :: free) r1 HRep1 Hr1 Hnd)
      as (w' & r' & Hrun & HRep' & Hr' & Hc' & Ho' & Hd'); [|lia|].
    { intros b Hb. destruct (Hin b) as [Hbl Hbf]; [set_solver|].
      split; [done|]. intros [->|?]%elem_of_cons; done. }
    exists w', r'. split.
    { simpl. by erewrite bind_Ok by exact Hm. }
    split.
    { simpl. by rewrite <- app_assoc. }
    split; [done|]. split.
    { rewrite length_cons, Nat2Z.inj_succ. lia. }
    split; congruence.
Qed.

(** X11: the free list is a stack.  If the records [ms] are live, distinct
    and not yet marked, and the counter is above their number, marking
    them in the order of [ms] returns with the free list holding them last
    marked first, in front of what was on the free list before; the live
    list is not touched (a traversal visits the same records in the same
    order), nothing is destroyed, and the counter has gone down by the
    number of marks. *)
Theorem marks_push_in_stack_order (n : nat) (self owner : std_thread_id)
    (w : World) (this : addr) (live free ms : list addr) (r : ThreadRegistry) :
  Rep w this live free →
  registries w !! this = Some r →
  NoDup ms → (∀ a, a ∈ ms → a ∈ live ∧ a ∉ free) →
  Z.of_nat (length ms) < ref_count r < size_t_modulus →
  ∃ w' r',
    run_script owner this (mark_each n self ms) w = Ok tt w'
    ∧ Rep w' this live (rev ms ++ free)
    ∧ visited this w' = Ok live w'
    ∧ registries w' !! this = Some r'
    ∧ free_head r' = head (rev ms ++ free)
    ∧ ref_count r' = ref_count r - Z.of_nat (length ms)
    ∧ destroyed w' = destroyed w.
Proof.
  intros HRep Hr Hnd Hin Hc.
  destruct (mark_each_spec n self owner this live ms w free r
              HRep Hr Hnd Hin Hc)
    as (w1 & r1 & Hrun & HRep1 & Hr1 & Hc1 & Ho1 & Hd1).
  exists w1, r1. split; [done|]. split; [done|].
  split; [by eapply visited_spec|]. split; [done|].
  split; [|by split].
  destruct (rep_registry _ _ _ _ HRep1) as (r'' & Hr'' & _ & Hfh).
  assert (r'' = r1) as -> by congruence. done.
Qed.

Lemma marks_push_in_stack_order_witness :
  ∃ w' r',
    run_script 7%positive 1%positive
      (mark_each 1 9%positive [6%positive; 5%positive]) (two_records 3)
    = Ok tt w'
    ∧ visited 1%positive w' = Ok [6%positive; 5%positive] w'
    ∧ registries w' !! 1%positive = Some r'
    ∧ free_head r' = Some 5%positive.
Proof.
  destruct (marks_push_in_stack_order 1 9%positive 7%positive (two_records 3)
              1%positive [6%positive; 5%positive] []
              [6%positive; 5%positive]
              (mkThreadRegistry 7%positive None (Some 6%positive) 3)
              (two_records_Rep 3) eq_refl)
    as (w' & r' & H1 & _ & H2 & H3 & H4 & _).
  { apply NoDup_cons. split; [|apply NoDup_singleton].
    intros [H|H]%elem_of_cons; [discriminate|by apply elem_of_nil in H]. }
  { intros a Ha. split; [exact Ha|]. intros H. by apply elem_of_nil in H. }
  { vm_compute. split; reflexivity. }
  exists w', r'. split; [exact H1|]. split; [exact H2|]. split; [exact H3|exact H4].
Defined.

(** X12: the mark that takes the counter to zero does not return.  If the
    counter equals the number of the marks (no other holder is left),
    marking the records in the order of [ms] is [Undefined]: the last mark
    links its record, its decrement takes the counter to zero and runs the
    final garbage collection, which destroys the record just linked and
    then reads its [next_to_free]. *)
Theorem last_mark_collect_undefined (n : nat) (self owner : std_thread_id)
    (w : World) (this : addr) (live free ms : list addr) (r : ThreadRegistry) :
  Rep w this live free →
  registries w !! this = Some r →
  NoDup ms → (∀ a, a ∈ ms → a ∈ live ∧ a ∉ free) →
  ms ≠ [] →
  ref_count r = Z.of_nat (length ms) →
  ref_count r < size_t_modulus →
  run_script owner this (mark_each n self ms) w = Undefined.
Proof.
  intros HRep Hr Hnd Hin Hne Hc Hlt.
  destruct ms as [|z ms0 _] using rev_ind; [done|]. clear Hne.
  apply NoDup_app in Hnd as (Hnd0 & Hdisj & _).
  rewrite length_app, Nat2Z.inj_add in Hc. simpl in Hc.
  destruct (mark_each_spec n self owner this live ms0 w free r HRep Hr Hnd0)
    as (w1 & r1 & Hrun & HRep1 & Hr1 & Hc1 & Ho1 & Hd1); [|lia|].
  { intros a Ha. apply Hin. set_solver. }
  assert (z ∈ live ∧ z ∉ free) as [Hzl Hzf] by (apply Hin; set_solver).
  assert (z ∉ rev ms0 ++ free) as Hz.
  { intros [Hz|Hz]%elem_of_app; [|done].
    apply list_elem_of_In in Hz. apply <- in_rev in Hz.
    apply list_elem_of_In in Hz. apply (Hdisj z Hz). set_solver. }
  destruct (dll_lookup _ _ _ _ _ (rep_live _ _ _ _ HRep1) Hzl) as (p & Hp & Hreg).
  pose proof (Rep_link _ _ _ _ _ _ _ HRep1 Hp Hr1 Hzl Hz) as HRepl.
  pose proof (decrement_ref_count_spec self this _ _ _
                (set_free_head (Some z) r1) HRepl) as Hdec.
  destruct (decide (ref_count (set_free_head (Some z) r1) = 1)) as [_|Hne];
    [|simpl in Hne; lia].
  unfold mark_each. rewrite fmap_app, run_script_app.
  erewrite bind_Ok by exact Hrun.
  change (run_script owner this (OpMark n self <$> [z]) w1)
    with ((do! mark_for_deletion n self this z in ret tt) w1).
  unfold bind. erewrite mark_for_deletion_unfold by done.
  rewrite Hdec; [done|]. simpl. apply lookup_insert_eq.
Qed.

Lemma last_mark_collect_undefined_witness :
  run_script 7%positive 1%positive
    (mark_each 0 9%positive [6%positive; 5%positive]) (two_records 2)
  = Undefined.
Proof.
  apply (last_mark_collect_undefined 0 9%positive 7%positive (two_records 2)
           1%positive [6%positive; 5%positive] []
           [6%positive; 5%positive]
           (mkThreadRegistry 7%positive None (Some 6%positive) 2)
           (two_records_Rep 2) eq_refl).
  - apply NoDup_cons. split; [|apply NoDup_singleton].
    intros [H|H]%elem_of_cons; [discriminate|by apply elem_of_nil in H].
  - intros a Ha. split; [exact Ha|]. intros H. by apply elem_of_nil in H.
  - discriminate.
  - reflexivity.
  - reflexivity.
Defined.

(** ** The mutators of the handle and the snapshot *)

(** X13: a snapshot taken after [update_state] and
    [update_source_location] on an attached handle shows the state and
    the line that were stored; its id is the record's address, and thread,
    file name, function name and waiter are those the record had before:
    the file and function names of the location passed are not used. *)
Theorem snapshot_shows_state_and_line (h : AddToAsyncRegistry) (a : addr)
    (p : Promise) (s : State) (loc : std_source_location) (w : World) :
  promise_in_registry h = Some a →
  promises w !! a = Some p →
  ∃ w',
    (do! update_state h s in
     do! update_source_location h loc in
     Promise_snapshot a) w
    = Ok (mkPromiseSnapshot (Some a) (thread p)
            (mkSourceLocationSnapshot (file_name (source_location p))
               (function_name (source_location p)) (sl_line loc))
            (waiter p) s) w'
    ∧ registries w' = registries w
    ∧ destroyed w' = destroyed w.
Proof.
  intros Hh Hp. unfold update_state, update_source_location. rewrite Hh.
  erewrite bind_Ok by (by apply modify_promise_Ok).
  erewrite bind_Ok by (apply modify_promise_Ok; simpl; apply lookup_insert_eq).
  unfold Promise_snapshot.
  erewrite bind_Ok by (apply load_promise_Ok; simpl; apply lookup_insert_eq).
  eexists. split; [reflexivity|]. by split.
Qed.

Lemma snapshot_shows_state_and_line_witness :
  ∃ w',
    (do! update_state (mkAddToAsyncRegistry (Some 5%positive)) Suspended in
     do! update_source_location (mkAddToAsyncRegistry (Some 5%positive))
           (mkStdSourceLocation "other.cpp" "other" 77 1) in
     Promise_snapshot 5%positive) (one_record Running 2)
    = Ok (mkPromiseSnapshot (Some 5%positive) (mkThread "worker" 7%positive)
            (mkSourceLocationSnapshot "query.cpp" "execute" 77)
            NoWaiter Suspended) w'.
Proof.
  destruct (snapshot_shows_state_and_line
              (mkAddToAsyncRegistry (Some 5%positive)) 5%positive
              (example_promise Running (Some 1%positive) None None None)
              Suspended (mkStdSourceLocation "other.cpp" "other" 77 1)
              (one_record Running 2) eq_refl eq_refl)
    as (w' & H1 & _).
  exists w'. exact H1.
Defined.

(** X14: the waiter of a record is the one stored last: after an async
    waiter and then a sync waiter are set the snapshot shows the sync
    waiter, after the other order the async waiter; the other fields of
    the snapshot are those of the record before. *)
Theorem snapshot_shows_last_waiter (h : AddToAsyncRegistry) (a : addr)
    (p : Promise) (aw : ptr) (sw : std_thread_id) (w : World) :
  promise_in_registry h = Some a →
  promises w !! a = Some p →
  (∃ w',
     (do! set_promise_waiter_async h aw in
      do! set_promise_waiter_sync h sw in
      Promise_snapshot a) w
     = Ok (mkPromiseSnapshot (Some a) (thread p)
             (SourceLocation_snapshot (source_location p))
             (SyncWaiter sw) (state p)) w')
  ∧ (∃ w',
       (do! set_promise_waiter_sync h sw in
        do! set_promise_waiter_async h aw in
        Promise_snapshot a) w
       = Ok (mkPromiseSnapshot (Some a) (thread p)
               (SourceLocation_snapshot (source_location p))
               (AsyncWaiter aw) (state p)) w').
Proof.
  intros Hh Hp. unfold set_promise_waiter_async, set_promise_waiter_sync.
  rewrite Hh. split.
  - erewrite bind_Ok by (by apply modify_promise_Ok).
    erewrite bind_Ok by (apply modify_promise_Ok; simpl; apply lookup_insert_eq).
    unfold Promise_snapshot.
    erewrite bind_Ok by (apply load_promise_Ok; simpl; apply lookup_insert_eq).
    eexists. reflexivity.
  - erewrite bind_Ok by (by apply modify_promise_Ok).
    erewrite bind_Ok by (apply modify_promise_Ok; simpl; apply lookup_insert_eq).
    unfold Promise_snapshot.
    erewrite bind_Ok by (apply load_promise_Ok; simpl; apply lookup_insert_eq).
    eexists. reflexivity.
Qed.

Lemma snapshot_shows_last_waiter_witness :
  ∃ w',
    (do! set_promise_waiter_async (mkAddToAsyncRegistry (Some 5%positive))
           (Some 6%positive) in
     do! set_promise_waiter_sync (mkAddToAsyncRegistry (Some 5%positive))
           9%positive in
     Promise_snapshot 5%positive) (one_record Running 2)
    = Ok (mkPromiseSnapshot (Some 5%positive) (mkThread "worker" 7%positive)
            (mkSourceLocationSnapshot "query.cpp" "execute" 10)
            (SyncWaiter 9%positive) Running) w'.
Proof.
  apply (proj1 (snapshot_shows_last_waiter
                  (mkAddToAsyncRegistry (Some 5%positive)) 5%positive
                  (example_promise Running (Some 1%positive) None None None)
                  (Some 6%positive) 9%positive (one_record Running 2)
                  eq_refl eq_refl)).
Defined.

Lemma free_chain_insert_same_link h l a p p' :
  h !! a = Some p → next_to_free p' = next_to_free p →
  free_chain h l → free_chain (<[a := p']> h) l.
Proof.
  intros Ha Hn. induction l as [|b l IH]; simpl; [done|].
  intros (q & Hq & Hqn & Hl). destruct (decide (b = a)) as [->|Hne].
  - exists p'. rewrite lookup_insert_eq. assert (q = p) as -> by congruence.
    split; [done|]. split; [congruence|by apply IH].
  - exists q. rewrite lookup_insert_ne by done. split; [done|].
    split; [done|by apply IH].
Qed.

(** A store to a record that keeps its four link fields keeps the lists of
    the registry. *)
Lemma Rep_modify_fields w this live free a p f :
  Rep w this live free → promises w !! a = Some p →
  next (f p) = next p → previous (f p) = previous p →
  registry (f p) = registry p → next_to_free (f p) = next_to_free p →
  Rep (with_promises (<[a := f p]> (promises w)) w) this live free.
Proof.
  intros [Hreg Hl Hf Hnd Hndf Hsub] Hp Hn Hpv Hr Hntf.
  constructor; simpl; try done.
  - by eapply dll_insert_same_links.
  - by eapply free_chain_insert_same_link.
Qed.

(** X15: the mutators of an attached handle never disturb the lists of a
    registry: after [update_state], [update_source_location] or either
    [set_promise_waiter] the registry is well-formed with the same live
    and free lists, a traversal visits the same records in the same
    order, and registries and the log of destroyed records are
    untouched. *)
Theorem mutators_keep_lists (w : World) (this : addr) (live free : list addr)
    (h : AddToAsyncRegistry) (a : addr) (p : Promise) (s : State)
    (loc : std_source_location) (aw : ptr) (sw : std_thread_id) :
  Rep w this live free →
  promise_in_registry h = Some a →
  promises w !! a = Some p →
  ∀ m, m ∈ [update_state h s; update_source_location h loc;
            set_promise_waiter_async h aw; set_promise_waiter_sync h sw] →
       ∃ w', m w = Ok tt w'
             ∧ Rep w' this live free
             ∧ visited this w' = Ok live w'
             ∧ registries w' = registries w
             ∧ destroyed w' = destroyed w.
Proof.
  intros HRep Hh Hp m Hm.
  assert (∀ f, next (f p) = next p → previous (f p) = previous p →
               registry (f p) = registry p →
               next_to_free (f p) = next_to_free p →
               ∃ w', modify_promise a f w = Ok tt w'
                     ∧ Rep w' this live free
                     ∧ visited this w' = Ok live w'
                     ∧ registries w' = registries w
                     ∧ destroyed w' = destroyed w) as Hmod.
  { intros f Hn Hpv Hr Hntf. eexists.
    split; [by apply modify_promise_Ok|].
    assert (Rep (with_promises (<[a := f p]> (promises w)) w) this live free)
      as HRep' by (by apply Rep_modify_fields).
    split; [done|]. split; [by eapply visited_spec|]. by split. }
  unfold update_state, update_source_location, set_promise_waiter_async,
    set_promise_waiter_sync in Hm. rewrite Hh in Hm.
  repeat (apply elem_of_cons in Hm as [->|Hm]; [by apply Hmod|]).
  by apply elem_of_nil in Hm.
Qed.

Lemma mutators_keep_lists_witness :
  ∃ w',
    update_state (mkAddToAsyncRegistry (Some 5%positive)) Resolved (two_records 2)
    = Ok tt w'
    ∧ visited 1%positive w' = Ok [6%positive; 5%positive] w'.
Proof.
  destruct (mutators_keep_lists (two_records 2) 1%positive
              [6%positive; 5%positive] []
              (mkAddToAsyncRegistry (Some 5%positive)) 5%positive
              (example_promise Running (Some 1%positive) None (Some 6%positive) None)
              Resolved example_location None 9%positive
              (two_records_Rep 2) eq_refl eq_refl
              (update_state (mkAddToAsyncRegistry (Some 5%positive)) Resolved))
    as (w' & H1 & _ & H2 & _).
  { apply elem_of_cons. by left. }
  exists w'. by split.
Defined.

Lemma modify_promise_commute a f g w :
  (∀ p, f (g p) = g (f p)) →
  (do! modify_promise a f in modify_promise a g) w
  = (do! modify_promise a g in modify_promise a f) w.
Proof.
  intros Hfg. unfold bind, modify_promise.
  destruct (promises w !! a) as [p|] eqn:Hp; [|done]. simpl.
  rewrite !lookup_insert_eq. simpl. by rewrite !insert_insert_eq, Hfg.
Qed.

(** X16: the mutators for state, line and waiter commute: on any handle
    and in any store, two of them on different fields give the same
    outcome in either order. *)
Theorem mutators_commute (h : AddToAsyncRegistry) (s : State)
    (loc : std_source_location) (aw : ptr) (sw : std_thread_id) (w : World) :
  (do! update_state h s in update_source_location h loc) w
  = (do! update_source_location h loc in update_state h s) w
  ∧ (do! update_state h s in set_promise_waiter_async h aw) w
    = (do! set_promise_waiter_async h aw in update_state h s) w
  ∧ (do! update_state h s in set_promise_waiter_sync h sw) w
    = (do! set_promise_waiter_sync h sw in update_state h s) w
  ∧ (do! update_source_location h loc in set_promise_waiter_async h aw) w
    = (do! set_promise_waiter_async h aw in update_source_location h loc) w
  ∧ (do! update_source_location h loc in set_promise_waiter_sync h sw) w
    = (do! set_promise_waiter_sync h sw in update_source_location h loc) w.
Proof.
  unfold update_state, update_source_location, set_promise_waiter_async,
    set_promise_waiter_sync.
  destruct (promise_in_registry h) as [a|]; [|by repeat split].
  repeat split; apply modify_promise_commute; by intros [].
Qed.

(** ** What every script keeps *)



Lemma wrap_size_t_plus_l c d : wrap_size_t (wrap_size_t c + d) = wrap_size_t (c + d).
Proof. unfold wrap_size_t. apply Zplus_mod_idemp_l. Qed.

Section Counter.
Variables (owner : std_thread_id) (this : addr).

(** One call of a script moves the counter by what the call asks for. *)
Lemma run_op_ref_count A K o w w1 r r1 c :
  Inv owner this A K w → script_ok A K [o] = true →
  registries w !! this = Some r → ref_count r = wrap_size_t c →
  run_op owner this o w = Ok tt w1 →
  registries w1 !! this = Some r1 →
  ref_count r1 = wrap_size_t (c + holders_delta o).
Proof.
  intros HInv Hok Hr Hc Hop Hr1.
  destruct (HInv r Hr) as (Ho & live & free & HRep & Hlive & Hmarked & Hnd & HKA).
  destruct o as [a t loc|n self a| | |self]; simpl in Hok, Hop |- *.
  - apply andb_prop in Hok as [Ha%bool_decide_eq_true _].
    assert (a ∉ live) as Hal by (intros Hin; apply Hlive in Hin; tauto).
    set (wi := with_promises (<[a := new_Promise t loc]> (promises w)) w) in *.
    assert (Rep wi this live free) as HRepi.
    { apply Rep_frame_promises; [done|]. intros x Hx.
      apply lookup_insert_ne. by intros ->. }
    destruct (add_spec wi this live free r a (new_Promise t loc) HRepi)
      as (w' & r' & Hadd & _ & Hr' & _ & Hc' & _); try done.
    { simpl. apply lookup_insert_eq. }
    unfold bind in Hop. fold wi in Hop. rewrite <- Ho, Hadd in Hop.
    inversion Hop; subst w1. assert (r1 = r') as -> by congruence.
    by rewrite Hc', Hc, wrap_size_t_plus_l.
  - apply andb_prop in Hok as [Hok _].
    apply andb_prop in Hok as [Ha%bool_decide_eq_true HaK%bool_decide_eq_true].
    assert (a ∉ free) as Haf by (intros Hin; apply HaK, Hmarked; by left).
    assert (a ∉ destroyed w) as Had by (intros Hin; apply HaK, Hmarked; by right).
    assert (a ∈ live) as Hal by (by apply Hlive).
    destruct (decide (ref_count r = 1)) as [H1|Hne].
    + destruct (dll_lookup _ _ _ _ _ (rep_live _ _ _ _ HRep) Hal)
        as (p & Hp & Hreg).
      erewrite mark_for_deletion_unfold in Hop by done.
      pose proof (Rep_link _ _ _ _ _ _ _ HRep Hp Hr Hal Haf) as HRepl.
      rewrite (decrement_ref_count_spec self this _ _ _
                 (set_free_head (Some a) r) HRepl) in Hop
        by (simpl; apply lookup_insert_eq).
      destruct (decide (ref_count (set_free_head (Some a) r) = 1)); [|done].
      discriminate.
    + destruct (mark_for_deletion_spec n self this w live free a r HRep Hr Hal Haf Hne)
        as (w' & r' & Hm & _ & Hr' & _ & Hc' & _).
      rewrite Hm in Hop. inversion Hop; subst w1.
      assert (r1 = r') as -> by congruence.
      rewrite Hc', Hc. unfold wrap_size_t. rewrite Zminus_mod_idemp_l.
      f_equal.
  - apply garbage_collect_Ok_inv in Hop as [-> _].
    assert (r1 = r) as -> by congruence.
    rewrite Hc. f_equal. lia.
  - unfold increment_ref_count in Hop.
    apply modify_registry_inv in Hop as (r0 & Hr0 & ->).
    assert (r0 = r) as -> by congruence.
    simpl in Hr1. rewrite lookup_insert_eq in Hr1. inversion Hr1; subst r1.
    simpl. by rewrite Hc, wrap_size_t_plus_l.
  - rewrite (decrement_ref_count_spec self this w live free r HRep Hr) in Hop.
    destruct (decide (ref_count r = 1)) as [H1|Hne].
    + destruct free; [|discriminate]. inversion Hop; subst w1. simpl in Hr1.
      by rewrite lookup_delete_eq in Hr1.
    + inversion Hop; subst w1.
      simpl in Hr1. rewrite lookup_insert_eq in Hr1. inversion Hr1; subst r1.
      simpl. rewrite Hc. unfold wrap_size_t. rewrite Zminus_mod_idemp_l.
      f_equal.
Qed.

Lemma run_script_ref_count s :
  ∀ A K w w' c r',
    Inv owner this A K w →
    (∀ r, registries w !! this = Some r → ref_count r = wrap_size_t c) →
    script_ok A K s = true →
    run_script owner this s w = Ok tt w' →
    registries w' !! this = Some r' →
    ref_count r' = wrap_size_t (c + holders s).
Proof.
  induction s as [|o s IH]; intros A K w w' c r' HInv Hc Hok Hrun Hr'.
  - inversion Hrun; subst w'. simpl. rewrite Z.add_0_r. by apply Hc.
  - simpl in Hrun. apply bind_Ok_inv in Hrun as ([] & w1 & Hop & Hrun).
    destruct (run_op_alive _ _ _ _ _ _ Hop) as [r Hr].
    assert (script_ok A K [o] = true) as Hok1.
    { destruct o; simpl in Hok |- *; try done.
      - apply andb_prop in Hok as [-> _]. done.
      - apply andb_prop in Hok as [-> _]. done. }
    assert (∀ r1, registries w1 !! this = Some r1 →
                  ref_count r1 = wrap_size_t (c + holders_delta o)) as Hc1.
    { intros r1 Hr1. eapply run_op_ref_count; eauto. }
    replace (c + holders (o :: s)) with ((c + holders_delta o) + holders s)
      by (simpl; lia).
    destruct o as [a t loc|n self a| | |self]; simpl in Hok.
    + apply andb_prop in Hok as [Ha%bool_decide_eq_true Hok].
      destruct (step_add owner this A K w r a t loc w1 HInv Hr Ha Hop) as [HInv1 _].
      exact (IH _ _ _ _ _ _ HInv1 Hc1 Hok Hrun Hr').
    + apply andb_prop in Hok as [Hok1' Hok].
      apply andb_prop in Hok1' as [Ha%bool_decide_eq_true HaK%bool_decide_eq_true].
      destruct (step_mark owner this A K w r n self a w1 HInv Hr Ha HaK Hop)
        as [HInv1 _].
      exact (IH _ _ _ _ _ _ HInv1 Hc1 Hok Hrun Hr').
    + destruct (step_collect owner this A K w w1 HInv Hop) as [HInv1 _].
      exact (IH _ _ _ _ _ _ HInv1 Hc1 Hok Hrun Hr').
    + destruct (step_increment owner this A K w r w1 HInv Hr Hop) as [HInv1 _].
      exact (IH _ _ _ _ _ _ HInv1 Hc1 Hok Hrun Hr').
    + destruct (step_decrement owner this A K w r self w1 HInv Hr Hop)
        as [HInv1 _].
      exact (IH _ _ _ _ _ _ HInv1 Hc1 Hok Hrun Hr').
Qed.
End Counter.

(** X18: the counter counts the holders.  In every store reached from
    [make] by a script that keeps the contract, as long as the registry has
    not deleted itself, its counter is, modulo 2^64, the number of adds and
    increments of the script less the number of its marks and decrements;
    garbage collections do not move it. *)
Theorem ref_count_counts_holders (owner : std_thread_id) (this : addr)
    (s : list op) (w00 w0 w : World) (r : ThreadRegistry) :
  destroyed w00 = [] →
  make owner w00 = Ok this w0 →
  script_ok ∅ ∅ s = true →
  run_script owner this s w0 = Ok tt w →
  registries w !! this = Some r →
  ref_count r = wrap_size_t (holders s).
Proof.
  intros Hd00 Hmake Hok Hrun Hr.
  pose proof (Inv_make owner this w00 w0 Hd00 Hmake) as HInv0.
  apply (run_script_ref_count owner this s ∅ ∅ w0 w 0 r HInv0); try done.
  intros r0 Hr0. apply make_spec in Hmake as (_ & Hr0' & _).
  assert (r0 = mkThreadRegistry owner None None 0) as -> by congruence.
  reflexivity.
Qed.

Lemma ref_count_counts_holders_witness :
  ∃ this w0 w r,
    make 7%positive empty_world = Ok this w0
    ∧ run_script 7%positive this example_script w0 = Ok tt w
    ∧ registries w !! this = Some r
    ∧ ref_count r = wrap_size_t (holders example_script)
    ∧ ref_count r = 2.
Proof.
  eexists _, _, _, _.
  split; [vm_compute; reflexivity|].
  split; [vm_compute; reflexivity|].
  split; [vm_compute; reflexivity|].
  split; [|reflexivity].
  eapply (ref_count_counts_holders 7%positive _ example_script empty_world);
    [reflexivity | vm_compute; reflexivity | vm_compute; reflexivity
    | vm_compute; reflexivity | vm_compute; reflexivity].
Defined.

(** ** [add] and [mark_for_deletion] in either order *)

(** [add] on a registry whose list has the head [hd]. *)
Lemma add_Ok_nonempty this a hd p phd r w :
  registries w !! this = Some r → promise_head r = Some hd →
  promises w !! a = Some p → promises w !! hd = Some phd → a ≠ hd →
  add (owning_thread r) this a w
  = Ok tt
      (with_registries
         (<[this := set_ref_count (wrap_size_t (ref_count r + 1))
                      (set_promise_head (Some a) r)]> (registries w))
         (with_promises
            (<[hd := set_previous (Some a) phd]>
               (<[a := set_registry (Some this) (set_next (Some hd) p)]>
                  (promises w))) w)).
Proof.
  intros Hr Hh Hp Hphd Hne. unfold add.
  erewrite bind_Ok by (by apply load_registry_Ok).
  unfold ADB_PROD_ASSERT. rewrite bool_decide_eq_true_2 by done.
  unfold bind at 1. rewrite Hh.
  erewrite bind_Ok by (by apply modify_promise_Ok).
  erewrite bind_Ok
    by (apply modify_promise_Ok; simpl; apply lookup_insert_eq).
  simpl. rewrite insert_insert_eq.
  erewrite bind_Ok
    by (apply modify_promise_Ok; simpl; rewrite lookup_insert_ne by done;
        exact Hphd).
  erewrite bind_Ok by (by apply modify_registry_Ok).
  unfold increment_ref_count.
  erewrite modify_registry_Ok by (simpl; apply lookup_insert_eq).
  simpl. by rewrite insert_insert_eq.
Qed.

(** [mark_for_deletion] that does not take the counter to zero. *)
Lemma mark_for_deletion_Ok n self this a p r w :
  promises w !! a = Some p → registry p = Some this →
  registries w !! this = Some r → ref_count r ≠ 1 →
  mark_for_deletion n self this a w
  = Ok tt
      (with_registries
         (<[this := set_ref_count (wrap_size_t (ref_count r - 1))
                      (set_free_head (Some a) r)]> (registries w))
         (with_promises
            (<[a := set_next_to_free (free_head r) p]> (promises w)) w)).
Proof.
  intros Hp Hreg Hr Hne.
  erewrite mark_for_deletion_unfold by done.
  erewrite decrement_ref_count_not_last;
    [|simpl; apply lookup_insert_eq|done].
  simpl. by rewrite insert_insert_eq.
Qed.

(** X19: on the owning thread, [add] of a constructed record and
    [mark_for_deletion] of a live record give the same store in either
    order, as long as neither order takes the counter to zero: the two
    calls write different fields. *)
Theorem add_mark_commute (n : nat) (self : std_thread_id) (w : World)
    (this : addr) (live free : list addr) (r : ThreadRegistry)
    (a b : addr) (p : Promise) :
  Rep w this live free →
  registries w !! this = Some r →
  promises w !! a = Some p → previous p = None → a ∉ live →
  b ∈ live → b ∉ free →
  1 < ref_count r < size_t_modulus →
  ∃ w',
    (do! add (owning_thread r) this a in mark_for_deletion n self this b) w
    = Ok tt w'
    ∧ (do! mark_for_deletion n self this b in add (owning_thread r) this a) w
      = Ok tt w'
    ∧ visited this w' = Ok (a :: live) w'
    ∧ Rep w' this (a :: live) (b :: free).
Proof.
  intros HRep Hr Hp Hprev Ha Hb Hbf Hc.
  assert (a ≠ b) as Hab by (intros ->; done).
  destruct (rep_registry _ _ _ _ HRep) as (r0 & Hr0 & Hh & Hfh).
  assert (r0 = r) as -> by congruence.
  destruct live as [|hd l']; [by apply elem_of_nil in Hb|]. simpl in Hh.
  assert (a ≠ hd) as Hahd by set_solver.
  destruct (dll_lookup _ _ _ _ _ (rep_live _ _ _ _ HRep) Hb) as (pb & Hpb & Hregb).
  destruct (dll_lookup _ _ _ _ _ (rep_live _ _ _ _ HRep) (list_elem_of_here hd l'))
    as (phd & Hphd & _).
  (* the specifications give the lists of the store of the first order *)
  destruct (add_spec w this (hd :: l') free r a p HRep Hr Hp Hprev Ha)
    as (wa & ra & Hadd & HRepa & Hra & Hoa & Hca & _).
  destruct (mark_for_deletion_spec n self this wa (a :: hd :: l') free b ra
              HRepa Hra)
    as (w' & r' & Hm & HRep' & _); [set_solver|done| |].
  { rewrite Hca. apply wrap_size_t_succ_not_one. lia. }
  exists w'. split; [by erewrite bind_Ok by exact Hadd|].
  split; [|split; [by eapply visited_spec|done]].
  (* the second order, computed, gives the same store *)
  rewrite <- Hm. clear Hm HRep' r'.
  rewrite (add_Ok_nonempty this a hd p phd r w) in Hadd by done.
  inversion Hadd; subst wa; clear Hadd.
  simpl in Hra. rewrite lookup_insert_eq in Hra. inversion Hra; subst ra; clear Hra.
  erewrite bind_Ok by (apply (mark_for_deletion_Ok n self this b pb r w); [done..|lia]).
  set (rm := set_ref_count (wrap_size_t (ref_count r - 1))
              (set_free_head (Some b) r)).
  change (owning_thread r) with (owning_thread rm).
  destruct (decide (hd = b)) as [->|Hhb].
  - assert (phd = pb) as -> by congruence.
    rewrite (add_Ok_nonempty this a b p (set_next_to_free (free_head r) pb) rm);
      [|simpl; apply lookup_insert_eq|done
       |simpl; rewrite lookup_insert_ne by done; exact Hp
       |simpl; apply lookup_insert_eq|done].
    erewrite mark_for_deletion_Ok;
      [|simpl; apply lookup_insert_eq|done|simpl; apply lookup_insert_eq
       |simpl; apply wrap_size_t_succ_not_one; lia].
    simpl. rewrite !insert_insert_eq.
    rewrite wrap_size_t_succ_pred, wrap_size_t_pred_succ.
    f_equal. unfold with_registries, with_promises. simpl. f_equal.
    apply map_eq. intros x. rewrite !lookup_insert.
    repeat case_decide; by simplify_eq.
  - rewrite (add_Ok_nonempty this a hd p phd rm);
      [|simpl; apply lookup_insert_eq|done
       |simpl; rewrite lookup_insert_ne by done; exact Hp
       |simpl; rewrite lookup_insert_ne by done; exact Hphd|done].
    erewrite mark_for_deletion_Ok;
      [|simpl; rewrite !lookup_insert_ne by done; exact Hpb|done
       |simpl; apply lookup_insert_eq
       |simpl; apply wrap_size_t_succ_not_one; lia].
    simpl. rewrite !insert_insert_eq.
    rewrite wrap_size_t_succ_pred, wrap_size_t_pred_succ.
    f_equal. unfold with_registries, with_promises. simpl. f_equal.
    apply map_eq. intros x. rewrite !lookup_insert.
    repeat case_decide; by simplify_eq.
Qed.

Lemma add_mark_commute_witness :
  ∃ w',
    (do! add 7%positive 1%positive 8%positive in
     mark_for_deletion 0 9%positive 1%positive 6%positive) (two_records 3)
    = Ok tt w'
    ∧ (do! mark_for_deletion 0 9%positive 1%positive 6%positive in
       add 7%positive 1%positive 8%positive) (two_records 3)
      = Ok tt w'.
Proof.
  destruct (add_mark_commute 0 9%positive (two_records 3) 1%positive
              [6%positive; 5%positive] []
              (mkThreadRegistry 7%positive None (Some 6%positive) 3)
              8%positive 6%positive
              (example_promise Running None None None None)
              (two_records_Rep 3) eq_refl eq_refl eq_refl)
    as (w' & H1 & H2 & _).
  { intros [H|[H|H]%elem_of_cons]%elem_of_cons;
      [discriminate|discriminate|by apply elem_of_nil in H]. }
  { apply elem_of_cons. by left. }
  { intros H. by apply elem_of_nil in H. }
  { vm_compute. split; reflexivity. }
  exists w'. by split.
Defined.

(** ** What the registry never writes *)

Lemma observables_kept_refl h : observables_kept h h.
Proof. intros b p Hp. eauto. Qed.

Lemma observables_kept_trans h1 h2 h3 :
  observables_kept h1 h2 → observables_kept h2 h3 → observables_kept h1 h3.
Proof.
  intros H12 H23 b p Hp.
  destruct (H12 b p Hp) as (p2 & Hp2 & E2).
  destruct (H23 b p2 Hp2) as (p3 & Hp3 & E3).
  exists p3. split; [done|congruence].
Qed.

Lemma modify_promise_observables a f w u w' :
  (∀ p, observables (f p) = observables p) →
  modify_promise a f w = Ok u w' →
  observables_kept (promises w) (promises w').
Proof.
  intros Hf H. apply modify_promise_inv in H as (p & Hp & ->). simpl.
  intros b q Hq. destruct (decide (b = a)) as [->|Hne].
  - exists (f p). rewrite lookup_insert_eq. assert (q = p) as -> by congruence.
    by split.
  - exists q. by rewrite lookup_insert_ne.
Qed.

Lemma modify_registry_promises this f w u w' :
  modify_registry this f w = Ok u w' → promises w' = promises w.
Proof. intros H. by apply modify_registry_inv in H as (r & _ & ->). Qed.

Lemma add_observables self this a w u w' :
  add self this a w = Ok u w' → observables_kept (promises w) (promises w').
Proof.
  unfold add. intros H.
  apply bind_Ok_inv in H as (r & w1 & H1 & H).
  apply load_registry_inv in H1 as [-> _].
  apply bind_Ok_inv in H as ([] & w1 & H1 & H).
  apply ADB_PROD_ASSERT_inv in H1 as [_ ->].
  apply bind_Ok_inv in H as ([] & w1 & H1 & H).
  apply modify_promise_observables in H1; [|by intros []].
  apply bind_Ok_inv in H as ([] & w2 & H2 & H).
  apply modify_promise_observables in H2; [|by intros []].
  apply bind_Ok_inv in H as ([] & w3 & H3 & H).
  assert (observables_kept (promises w2) (promises w3)) as H23.
  { destruct (promise_head r).
    - apply modify_promise_observables in H3; [done|by intros []].
    - inversion H3. apply observables_kept_refl. }
  apply bind_Ok_inv in H as ([] & w4 & H4 & H).
  apply modify_registry_promises in H4. apply modify_registry_promises in H.
  rewrite H, H4.
  eauto using observables_kept_trans.
Qed.

Lemma remove_observables this a w u w' :
  remove this a w = Ok u w' → observables_kept (promises w) (promises w').
Proof.
  unfold remove. intros H.
  apply bind_Ok_inv in H as (p & w1 & H1 & H).
  apply load_promise_inv in H1 as [-> _].
  apply bind_Ok_inv in H as ([] & w2 & H1 & H2).
  assert (observables_kept (promises w) (promises w2)) as H12.
  { destruct (previous p).
    - apply modify_promise_observables in H1; [done|by intros []].
    - apply modify_registry_promises in H1. rewrite H1.
      apply observables_kept_refl. }
  eapply observables_kept_trans; [exact H12|].
  destruct (next p).
  - apply modify_promise_observables in H2; [done|by intros []].
  - inversion H2. apply observables_kept_refl.
Qed.

Lemma garbage_collect_loop_observables this fuel cur w u w' :
  garbage_collect_loop fuel this cur w = Ok u w' →
  observables_kept (promises w) (promises w').
Proof.
  intros H. apply garbage_collect_loop_Ok_inv in H as [_ ->].
  apply observables_kept_refl.
Qed.

Lemma garbage_collect_observables self this w u w' :
  garbage_collect self this w = Ok u w' →
  observables_kept (promises w) (promises w').
Proof.
  unfold garbage_collect. intros H.
  apply bind_Ok_inv in H as (r & w1 & H1 & H).
  apply load_registry_inv in H1 as [-> _].
  apply bind_Ok_inv in H as ([] & w1 & H1 & H).
  apply ADB_PROD_ASSERT_inv in H1 as [_ ->].
  apply bind_Ok_inv in H as ([] & w1 & H1 & H).
  apply modify_registry_promises in H1.
  apply bind_Ok_inv in H as (w2 & w3 & Hg & H).
  inversion Hg; subst w2 w3.
  apply garbage_collect_loop_observables in H. by rewrite H1 in H.
Qed.

Lemma decrement_ref_count_observables self this w u w' :
  decrement_ref_count self this w = Ok u w' →
  observables_kept (promises w) (promises w').
Proof.
  unfold decrement_ref_count. intros H.
  apply bind_Ok_inv in H as (r & w1 & H1 & H).
  apply load_registry_inv in H1 as [-> _].
  apply bind_Ok_inv in H as ([] & w1 & H1 & H).
  apply modify_registry_promises in H1.
  destruct (bool_decide (ref_count r = 1)).
  - apply bind_Ok_inv in H as ([] & w2 & H2 & H).
    apply garbage_collect_observables in H2. rewrite H1 in H2.
    unfold delete_registry in H. apply bind_Ok_inv in H as (q & w3 & H3 & H).
    apply load_registry_inv in H3 as [-> _]. inversion H; subst w'. done.
  - inversion H; subst w'. rewrite H1. apply observables_kept_refl.
Qed.

Lemma compare_exchange_weak_promises sp this e d w res w' :
  compare_exchange_weak sp this e d w = Ok res w' → promises w' = promises w.
Proof.
  unfold compare_exchange_weak. intros H.
  apply bind_Ok_inv in H as (r & w1 & H1 & H).
  apply load_registry_inv in H1 as [-> _].
  destruct (bool_decide (free_head r = e) && negb sp).
  - apply bind_Ok_inv in H as ([] & w1 & H1 & H).
    apply modify_registry_promises in H1. inversion H; subst w'. done.
  - by inversion H.
Qed.

Lemma mark_for_deletion_loop_observables n this a :
  ∀ cur w u w',
    mark_for_deletion_loop n this a cur w = Ok u w' →
    observables_kept (promises w) (promises w').
Proof.
  induction n as [|n IH]; intros cur w u w' H; simpl in H.
  - apply bind_Ok_inv in H as ([] & w1 & H1 & H).
    apply modify_promise_observables in H1; [|by intros []].
    apply bind_Ok_inv in H as (res & w2 & H2 & H).
    apply compare_exchange_weak_promises in H2.
    destruct res.1; [|discriminate]. inversion H; subst w'. by rewrite H2.
  - apply bind_Ok_inv in H as ([] & w1 & H1 & H).
    apply modify_promise_observables in H1; [|by intros []].
    apply bind_Ok_inv in H as (res & w2 & H2 & H).
    apply compare_exchange_weak_promises in H2.
    destruct res.1.
    + inversion H; subst w'. by rewrite H2.
    + apply IH in H. rewrite H2 in H. eauto using observables_kept_trans.
Qed.

Lemma mark_for_deletion_observables n self this a w u w' :
  mark_for_deletion n self this a w = Ok u w' →
  observables_kept (promises w) (promises w').
Proof.
  unfold mark_for_deletion. intros H.
  apply bind_Ok_inv in H as (p & w1 & H1 & H).
  apply load_promise_inv in H1 as [-> _].
  apply bind_Ok_inv in H as ([] & w1 & H1 & H).
  apply ADB_PROD_ASSERT_inv in H1 as [_ ->].
  apply bind_Ok_inv in H as (r & w1 & H1 & H).
  apply load_registry_inv in H1 as [-> _].
  apply bind_Ok_inv in H as ([] & w1 & H1 & H).
  apply mark_for_deletion_loop_observables in H1.
  apply decrement_ref_count_observables in H.
  eauto using observables_kept_trans.
Qed.

Lemma Promise_snapshot_observables a w w' s :
  observables_kept (promises w) (promises w') →
  Promise_snapshot a w = Ok s w → Promise_snapshot a w' = Ok s w'.
Proof.
  intros Hk H. unfold Promise_snapshot in *.
  apply bind_Ok_inv in H as (p & w1 & H1 & H).
  apply load_promise_inv in H1 as [-> Hp].
  destruct (Hk a p Hp) as (p' & Hp' & Ho).
  erewrite bind_Ok by (by apply load_promise_Ok).
  inversion H; subst s. unfold observables in Ho. inversion Ho.
  unfold ret. congruence.
Qed.

(** X20: the calls of the registry never write what a snapshot shows.
    Whenever [add], [mark_for_deletion], [garbage_collect] or
    [decrement_ref_count] returns, in any store and for any arguments,
    every record keeps its thread, source location, waiter and state: a
    snapshot of a record that has not been destroyed is the snapshot that
    was taken of it before the call. *)
Theorem registry_calls_keep_snapshots (n : nat) (self : std_thread_id)
    (this a : addr) (w w' : World) (b : addr) (s : PromiseSnapshot) :
  add self this a w = Ok tt w'
  ∨ mark_for_deletion n self this a w = Ok tt w'
  ∨ garbage_collect self this w = Ok tt w'
  ∨ decrement_ref_count self this w = Ok tt w' →
  Promise_snapshot b w = Ok s w →
  b ∉ destroyed w' →
  Promise_snapshot b w' = Ok s w'.
Proof.
  intros H Hs _.
  assert (observables_kept (promises w) (promises w')) as Hk.
  { destruct H as [H|[H|[H|H]]].
    - by eapply add_observables.
    - by eapply mark_for_deletion_observables.
    - by eapply garbage_collect_observables.
    - by eapply decrement_ref_count_observables. }
  by eapply Promise_snapshot_observables.
Qed.

Lemma registry_calls_keep_snapshots_witness :
  ∃ w',
    add 7%positive 1%positive 8%positive (two_records 2) = Ok tt w'
    ∧ Promise_snapshot 6%positive w'
      = Ok (mkPromiseSnapshot (Some 6%positive) (mkThread "worker" 7%positive)
              (mkSourceLocationSnapshot "query.cpp" "execute" 10)
              NoWaiter Running) w'.
Proof.
  eexists. split; [vm_compute; reflexivity|].
  eapply (registry_calls_keep_snapshots 0 7%positive 1%positive 8%positive
            (two_records 2) _ 6%positive).
  - left. vm_compute; reflexivity.
  - vm_compute; reflexivity.
  - simpl. intros H. by apply elem_of_nil in H.
Defined.
